(** * version-checker: the tag-resolution engine of [pkg/version/version.go]

    A shallow embedding of [VersionGetter] (cache, client dispatch, tag
    fetch), of the two selection loops [latestSemver] and [latestSHA], and of
    [CalculateHashIndex], followed by the properties the specification states
    about them.

    Go values are modelled as follows.
    - [string] is a byte string: Rocq's [string] of [ascii].
    - [int64], [uint32], [uint64] are [Z] with the range written out.
    - a result [(x, err)] is a pair whose second component is [option error];
      [None] is Go's [nil] error.
    - [*api.ImageTag] pointing into a slice is the index of the element
      together with the element; [None] is the [nil] pointer.
    - the receiver [v *VersionGetter] is threaded through a state monad,
      which also records the calls made on the registry clients, on the
      lock and on the backing map of the cache. *)

From Stdlib Require Import ZArith Ascii String DecimalString DecimalN Lia.
From stdpp Require Import gmap strings list fin_maps.

Local Open Scope Z_scope.

(* ===================================================================== *)
(** * Definitions *)
(* ===================================================================== *)

(** ** The parts of Go's [strconv] and [strings] that the code reaches *)

Module strconv.

Inductive NumError := ErrSyntax | ErrRange.

Definition is_digit (c : ascii) : bool :=
  (Ascii.leb "0" c && Ascii.leb c "9")%bool.

Definition digit_val (c : ascii) : Z :=
  Z.of_N (N_of_ascii c) - 48.

(** The value of a run of decimal digits, most significant first;
    [None] at the first byte that is not a digit. *)
Fixpoint digits_from (acc : Z) (s : string) : option Z :=
  match s with
  | EmptyString => Some acc
  | String c s' =>
      if is_digit c then digits_from (acc * 10 + digit_val c) s' else None
  end.

(** [strconv.ParseUint(s, 10, bitSize)]: no sign is accepted, and with an
    explicit base no underscore either. *)
Definition ParseUint (s : string) (bitSize : Z) : Z + NumError :=
  match s with
  | EmptyString => inr ErrSyntax
  | _ =>
      match digits_from 0 s with
      | None => inr ErrSyntax
      | Some n => if n <? 2 ^ bitSize then inl n else inr ErrRange
      end
  end.

(** [strconv.ParseInt(s, 10, bitSize)]: an optional sign, then
    [ParseUint] on the rest, then the signed range check. *)
Definition ParseInt (s : string) (bitSize : Z) : Z + NumError :=
  match s with
  | EmptyString => inr ErrSyntax
  | String c s' =>
      let neg := Ascii.eqb c "-" in
      let body := if (Ascii.eqb c "+" || neg)%bool then s' else s in
      match ParseUint body bitSize with
      | inr e => inr e
      | inl un =>
          let cutoff := 2 ^ (bitSize - 1) in
          if (negb neg && (cutoff <=? un))%bool then inr ErrRange
          else if (neg && (cutoff <? un))%bool then inr ErrRange
          else inl (if neg then - un else un)
      end
  end.

End strconv.

Module strings.

(** [strings.Split(s, ".")]: the pieces between the dots; a string
    without a dot is its own single piece. *)
Fixpoint Split_dot (s : string) : list string :=
  match s with
  | EmptyString => [EmptyString]
  | String c s' =>
      if Ascii.eqb c "." then EmptyString :: Split_dot s'
      else match Split_dot s' with
           | p :: ps => String c p :: ps
           | [] => [String c EmptyString]
           end
  end.

(** [strings.TrimPrefix(s, ".")]. *)
Definition TrimPrefix_dot (s : string) : string :=
  match s with
  | String c s' => if Ascii.eqb c "." then s' else s
  | EmptyString => s
  end.

(** Go's [s > o] on strings: byte-wise lexicographic. *)
Definition gt (s o : string) : bool := String.ltb o s.

End strings.

(** ** The external package [github.com/masterminds/semver]

    [latestSemver] calls [NewVersion], [Prerelease], [Major], [Minor],
    [Patch] and [LessThan] of this package.  The package is not part of the
    repository; the model below follows the sources of its release 1.5.0,
    the last under this import path. *)

Module semver.

Record Version := mkVersion {
  major : Z;
  minor : Z;
  patch : Z;
  pre : string;
  metadata : string;
  original : string;
}.

Inductive ParseError :=
| ErrInvalidSemVer
| ErrSegment (e : strconv.NumError).

(** *** [versionRegex]

    The package compiles, anchored at both ends, the pattern
    [v? NUM (\.NUM)? (\.NUM)? (-(IDS))? (\+(IDS))?] where [NUM] is one or
    more of [0-9] and [IDS] is one or more dot-separated non-empty runs
    of the bytes [0-9A-Za-z-].  Groups 1, 2, 3, 5 and 8 are the first
    [NUM], the two dotted [NUM]s and the two [IDS]. *)

Definition is_ident_char (c : ascii) : bool :=
  (strconv.is_digit c
   || (Ascii.leb "A" c && Ascii.leb c "Z")
   || (Ascii.leb "a" c && Ascii.leb c "z")
   || Ascii.eqb c "-")%bool.

(** A greedy run of [0-9]: the digits taken and the rest. *)
Fixpoint span_digits (s : string) : string * string :=
  match s with
  | String c s' =>
      if strconv.is_digit c
      then let (d, r) := span_digits s' in (String c d, r)
      else (EmptyString, s)
  | EmptyString => (EmptyString, EmptyString)
  end.

(** An optional dotted [NUM]: the group with its dot, or the empty
    string when the group does not take part in the match. *)
Definition opt_dot_digits (s : string) : string * string :=
  match s with
  | String c s' =>
      if Ascii.eqb c "." then
        match span_digits s' with
        | (EmptyString, _) => (EmptyString, s)
        | (d, r) => (String c d, r)
        end
      else (EmptyString, s)
  | EmptyString => (EmptyString, s)
  end.

(** [IDS], greedy.  With [need] the next
    byte has to start an identifier; without it the scan is inside an
    identifier, where a dot continues the match only if an identifier
    follows it. *)
Fixpoint scan_idents (need : bool) (s : string) : option (string * string) :=
  match s with
  | EmptyString => if need then None else Some (EmptyString, EmptyString)
  | String c s' =>
      if is_ident_char c then
        match scan_idents false s' with
        | Some (m, r) => Some (String c m, r)
        | None => None
        end
      else if need then None
      else if Ascii.eqb c "." then
        match scan_idents true s' with
        | Some (m, r) => Some (String c m, r)
        | None => Some (EmptyString, s)
        end
      else Some (EmptyString, s)
  end.

(** An optional [IDS] behind the introducer [x] (a hyphen or a plus):
    the inner group, or the empty string. *)
Definition opt_tagged (x : ascii) (s : string) : string * string :=
  match s with
  | String c s' =>
      if Ascii.eqb c x then
        match scan_idents true s' with
        | Some (m, r) => (m, r)
        | None => (EmptyString, s)
        end
      else (EmptyString, s)
  | EmptyString => (EmptyString, s)
  end.

(** The submatches [m[1]], [m[2]], [m[3]], [m[5]], [m[8]] that
    [NewVersion] reads. *)
Record Submatch := mkSubmatch {
  m1 : string; m2 : string; m3 : string; m5 : string; m8 : string;
}.

(** [versionRegex.FindStringSubmatch(v)]; [None] is the [nil] slice. *)
Definition FindStringSubmatch (v : string) : option Submatch :=
  let s0 := match v with
            | String c s' => if Ascii.eqb c "v" then s' else v
            | EmptyString => v
            end in
  let (g1, s1) := span_digits s0 in
  match g1 with
  | EmptyString => None
  | _ =>
      let (g2, s2) := opt_dot_digits s1 in
      let (g3, s3) := opt_dot_digits s2 in
      let (g5, s4) := opt_tagged "-" s3 in
      let (g8, s5) := opt_tagged "+" s4 in
      match s5 with
      | EmptyString => Some (mkSubmatch g1 g2 g3 g5 g8)
      | _ => None
      end
  end.

(** One of the three segment conversions of [NewVersion]. *)
Definition segment (g : string) : Z + ParseError :=
  match g with
  | EmptyString => inl 0
  | _ =>
      match strconv.ParseInt (strings.TrimPrefix_dot g) 64 with
      | inl n => inl n
      | inr e => inr (ErrSegment e)
      end
  end.

Definition NewVersion (v : string) : Version + ParseError :=
  match FindStringSubmatch v with
  | None => inr ErrInvalidSemVer
  | Some m =>
      match strconv.ParseInt (m1 m) 64 with
      | inr e => inr (ErrSegment e)
      | inl ma =>
          match segment (m2 m) with
          | inr e => inr e
          | inl mi =>
              match segment (m3 m) with
              | inr e => inr e
              | inl pa => inl (mkVersion ma mi pa (m5 m) (m8 m) v)
              end
          end
      end
  end.

Definition Major (v : Version) : Z := major v.
Definition Minor (v : Version) : Z := minor v.
Definition Patch (v : Version) : Z := patch v.
Definition Prerelease (v : Version) : string := pre v.

Definition compareSegment (v o : Z) : Z :=
  if v <? o then -1 else if o <? v then 1 else 0.

Definition comparePrePart (s o : string) : Z :=
  if String.eqb s o then 0
  else if String.eqb s EmptyString then -1
  else if String.eqb o EmptyString then 1
  else
    match strconv.ParseUint o 64, strconv.ParseUint s 64 with
    | inr _, inr _ => if strings.gt s o then 1 else -1
    | inr _, inl _ => -1
    | inl _, inr _ => 1
    | inl oi, inl si => if oi <? si then 1 else -1
    end.

(** The loop of [comparePrerelease]: [i] runs up to the longer of the
    two lengths, and a part past the end of its list is the empty
    string. *)
Fixpoint compareParts (sparts oparts : list string) (i n : nat) : Z :=
  match n with
  | O => 0
  | S n' =>
      let stemp := nth i sparts EmptyString in
      let otemp := nth i oparts EmptyString in
      let d := comparePrePart stemp otemp in
      if negb (d =? 0) then d else compareParts sparts oparts (S i) n'
  end.

Definition comparePrerelease (v o : string) : Z :=
  let sparts := strings.Split_dot v in
  let oparts := strings.Split_dot o in
  let slen := length sparts in
  let olen := length oparts in
  let l := if (slen <? olen)%nat then olen else slen in
  compareParts sparts oparts 0 l.

Definition Compare (v o : Version) : Z :=
  let d1 := compareSegment (Major v) (Major o) in
  if negb (d1 =? 0) then d1 else
  let d2 := compareSegment (Minor v) (Minor o) in
  if negb (d2 =? 0) then d2 else
  let d3 := compareSegment (Patch v) (Patch o) in
  if negb (d3 =? 0) then d3 else
  let ps := pre v in
  let po := Prerelease o in
  if (String.eqb ps EmptyString && String.eqb po EmptyString)%bool then 0
  else if String.eqb ps EmptyString then 1
  else if String.eqb po EmptyString then -1
  else comparePrerelease ps po.

Definition LessThan (v o : Version) : bool := Compare v o <? 0.

End semver.

(** ** Go's [time.Time], [context.Context] and [regexp.Regexp] *)

Module time.

(** An instant, in nanoseconds since the epoch. *)
Definition Time := Z.
(** A [time.Duration], in nanoseconds. *)
Definition Duration := Z.

Definition After (t u : Time) : bool := u <? t.
Definition Sub (t u : Time) : Duration := t - u.

End time.

Module context.

Inductive Context :=
| Background
| WithCancel (parent : Context) (cancelled : bool)
| WithDeadline (parent : Context) (deadline : time.Time).

End context.

Module regexp.

(** A compiled expression, known by what [MatchString] answers. *)
Record Regexp := mkRegexp { MatchString : string -> bool }.

End regexp.

(** ** Package [api] *)

Module api.

(** Modelled from the spec: the declaration of [api.ImageTag] (section 3,
    ImageTag) is in [pkg/api], which is not among the sources;
    [version.go] reads [Tag] and [Timestamp]. *)
Record ImageTag := mkImageTag {
  Tag : string;
  SHA : string;
  Timestamp : time.Time;
}.

(** Modelled from the spec: the declaration of [api.Options] (section 3,
    Options) is in [pkg/api], which is not among the sources.  The three
    pins are [*int64] and [RegexMatcher] is [*regexp.Regexp]: [None] is
    the [nil] pointer and [Some x] a pointer to [x]. *)
Record Options := mkOptions {
  UseSHA : bool;
  UsePreRelease : bool;
  PinMajor : option Z;
  PinMinor : option Z;
  PinPatch : option Z;
  RegexMatcher : option regexp.Regexp;
}.

End api.

Import api.

(** ** Errors

    Every [error] value that [version.go] creates or passes on.  The
    messages built by [fmt.Errorf] are kept as their arguments. *)
Inductive error :=
| ErrSemver (e : semver.ParseError)
    (* returned by semver.NewVersion *)
| ErrNoImageFound (opts : Options)
    (* "no image found with those option constraints: %+v" *)
| ErrLatestSHA
    (* "failed to find latest image based on SHA" *)
| ErrRegistry (msg : string)
    (* returned by a registry client's Tags *)
| ErrGetTags (imageURL : string) (err : error)
    (* "failed to get tags from remote registry for %q: %s" *)
| ErrNoTagsFound (imageURL : string)
    (* "no tags found for given image URL: %q" *)
| ErrJSON (msg : string)
    (* returned by json.Marshal *)
| ErrMarshalOptions (err : error)
    (* "failed to marshal options: %s" *)
| ErrCalculateHash (err : error).
    (* "failed to calculate image hash: %s" *)

(** [*api.ImageTag] into a slice: the index and the element. *)
Definition ImageTagPtr : Type := option (nat * ImageTag).

(** ** The version selector *)

(** [opts.PinX != nil && v.X() != *opts.PinX]. *)
Definition pin_differs (pin : option Z) (x : Z) : bool :=
  match pin with
  | Some p => negb (x =? p)
  | None => false
  end.

(** [opts.RegexMatcher != nil && !opts.RegexMatcher.MatchString(tag)]. *)
Definition regex_rejects (opts : Options) (tag : string) : bool :=
  match RegexMatcher opts with
  | Some re => negb (regexp.MatchString re tag)
  | None => false
  end.

(** The [for i := range tags] loop of [latestSemver] from index [i] on,
    [rest] being [tags[i:]], followed by the code after the loop. *)
Fixpoint latestSemver_loop (opts : Options) (i : nat) (rest : list ImageTag)
    (latestImageTag : ImageTagPtr) (latestSemVer : option semver.Version)
    : ImageTagPtr * option error :=
  match rest with
  | [] =>
      match latestImageTag with
      | None => (None, Some (ErrNoImageFound opts))
      | Some p => (Some p, None)
      end
  | t :: rest' =>
      let continue := latestSemver_loop opts (S i) rest' latestImageTag latestSemVer in
      match semver.NewVersion (Tag t) with
      | inr semver.ErrInvalidSemVer => continue
      | inr err => (None, Some (ErrSemver err))
      | inl v =>
          if regex_rejects opts (Tag t) then continue
          else if (negb (String.eqb (semver.Prerelease v) EmptyString)
                   && negb (UsePreRelease opts))%bool then continue
          else if pin_differs (PinMajor opts) (semver.Major v) then continue
          else if pin_differs (PinMinor opts) (semver.Minor v) then continue
          else if pin_differs (PinPatch opts) (semver.Patch v) then continue
          else if match latestSemVer with
                  | None => true
                  | Some l => semver.LessThan l v
                  end
          then latestSemver_loop opts (S i) rest' (Some (i, t)) (Some v)
          else continue
      end
  end.

Definition latestSemver (opts : Options) (tags : list ImageTag)
    : ImageTagPtr * option error :=
  latestSemver_loop opts 0 tags None None.

(** The loop of [latestSHA] and the code after it. *)
Fixpoint latestSHA_loop (i : nat) (rest : list ImageTag)
    (latestTag : ImageTagPtr) : ImageTagPtr * option error :=
  match rest with
  | [] =>
      match latestTag with
      | None => (None, Some ErrLatestSHA)
      | Some p => (Some p, None)
      end
  | t :: rest' =>
      if match latestTag with
         | None => true
         | Some (_, l) => time.After (Timestamp t) (Timestamp l)
         end
      then latestSHA_loop (S i) rest' (Some (i, t))
      else latestSHA_loop (S i) rest' latestTag
  end.

Definition latestSHA (tags : list ImageTag) : ImageTagPtr * option error :=
  latestSHA_loop 0 tags None.

(** ** The version getter *)

(** The interface [ImageClient]. *)
Record ImageClient := mkImageClient {
  IsClient : string -> bool;
  Tags : context.Context -> string -> list ImageTag * option error;
}.

(** The three fields of [VersionGetter] that hold a client. *)
Inductive Registry := Quay | Gcr | Docker.

Record imageCacheItem := mkImageCacheItem {
  timestamp : time.Time;
  tags : list ImageTag;
}.

Record VersionGetter := mkVersionGetter {
  quay : ImageClient;
  docker : ImageClient;
  gcr : ImageClient;
  cacheTimeout : time.Duration;
  imageCache : gmap string imageCacheItem;
}.

Definition client_of (v : VersionGetter) (r : Registry) : ImageClient :=
  match r with
  | Quay => quay v
  | Gcr => gcr v
  | Docker => docker v
  end.

(** What a method of [VersionGetter] does that is visible from outside
    its own frame. *)
Inductive Event :=
| EvRLock | EvRUnlock           (* v.cacheMu.RLock(), RUnlock() *)
| EvLock | EvUnlock             (* v.cacheMu.Lock(), Unlock() *)
| EvMapRead (key : string)      (* v.imageCache[key] read *)
| EvMapWrite (key : string)     (* v.imageCache[key] = ... *)
| EvIsClient (r : Registry) (imageURL : string)
| EvTags (r : Registry) (imageURL : string)
| EvDebugf (imageURL : string).

(** The receiver, the clock that [time.Now] reads and the events so far,
    oldest first.  The clock stands still during a call: the only use of
    the time is the stamp of a new cache entry and the age of an old
    one. *)
Record World := mkWorld {
  vg : VersionGetter;
  clock : time.Time;
  events : list Event;
}.

Definition M (A : Type) : Type := World -> A * World.

#[export] Instance M_ret : MRet M := fun A (a : A) w => (a, w).

#[export] Instance M_bind : MBind M :=
  fun A B (k : A -> M B) (m : M A) w => let (a, w') := m w in k a w'.

(** The world after one more event. *)
Definition record (e : Event) (w : World) : World :=
  mkWorld (vg w) (clock w) (events w ++ [e]).

Definition emit (e : Event) : M unit := fun w => (tt, record e w).

Definition time_Now : M time.Time := fun w => (clock w, w).

Definition get_cacheTimeout : M time.Duration :=
  fun w => (cacheTimeout (vg w), w).

(** [v.imageCache[key]], the comma-ok form. *)
Definition cache_read (key : string) : M (option imageCacheItem) :=
  fun w => (imageCache (vg w) !! key, record (EvMapRead key) w).

Definition set_imageCache (c : gmap string imageCacheItem) (v : VersionGetter)
    : VersionGetter :=
  mkVersionGetter (quay v) (docker v) (gcr v) (cacheTimeout v) c.

(** [v.imageCache[key] = item]. *)
Definition cache_write (key : string) (item : imageCacheItem) : M unit :=
  fun w =>
    (tt, mkWorld (set_imageCache (<[key := item]> (imageCache (vg w))) (vg w))
           (clock w) (events w ++ [EvMapWrite key])).

Definition call_IsClient (r : Registry) (imageURL : string) : M bool :=
  fun w => (IsClient (client_of (vg w) r) imageURL,
            record (EvIsClient r imageURL) w).

Definition call_Tags (r : Registry) (ctx : context.Context) (imageURL : string)
    : M (list ImageTag * option error) :=
  fun w => (Tags (client_of (vg w) r) ctx imageURL,
            record (EvTags r imageURL) w).

(** Modelled from the spec: [tryImageCache] is called by
    [allTagsFromImage] and defined in a file that is not among the sources.
    Section 4.2, lookup: the cached tag list only if an entry exists and
    its age is strictly less than the configured TTL, otherwise not found;
    section 5: a read holds the reader form of the lock. *)
Definition tryImageCache (imageURL : string) : M (list ImageTag * bool) :=
  emit EvRLock;;
  item ← cache_read imageURL;
  now ← time_Now;
  ttl ← get_cacheTimeout;
  emit EvRUnlock;;
  match item with
  | Some it =>
      if time.Sub now (timestamp it) <? ttl then mret (tags it, true)
      else mret ([], false)
  | None => mret ([], false)
  end.

Definition clientFromImage (imageURL : string) : M Registry :=
  q ← call_IsClient Quay imageURL;
  if q : bool then mret Quay else
  g ← call_IsClient Gcr imageURL;
  if g : bool then mret Gcr else
  d ← call_IsClient Docker imageURL;
  if d : bool then mret Docker else
  mret Docker.

Definition allTagsFromImage (ctx : context.Context) (imageURL : string)
    : M (list ImageTag * option error) :=
  '(tags, ok) ← tryImageCache imageURL;
  if ok : bool then mret (tags, None) else
  client ← clientFromImage imageURL;
  '(tags, err) ← call_Tags client ctx imageURL;
  match err with
  | Some e => mret ([], Some (ErrGetTags imageURL e))
  | None =>
      if (length tags =? 0)%nat then mret ([], Some (ErrNoTagsFound imageURL))
      else
        emit (EvDebugf imageURL);;
        now ← time_Now;
        cache_write imageURL (mkImageCacheItem now tags);;
        mret (tags, None)
  end.

Definition LatestTagFromImage (ctx : context.Context) (opts : Options)
    (imageURL : string) : M (ImageTagPtr * option error) :=
  '(tags, err) ← allTagsFromImage ctx imageURL;
  match err with
  | Some e => mret (None, Some e)
  | None =>
      if UseSHA opts then mret (latestSHA tags)
      else mret (latestSemver opts tags)
  end.

(** ** The option fingerprint *)

Module fnv.

Definition offset32 : Z := 2166136261.
Definition prime32 : Z := 16777619.

Definition byte_val (c : ascii) : Z := Z.of_N (N_of_ascii c).

(** [hash *= prime32; hash ^= sum32(c)] on a [uint32]. *)
Definition step (hash : Z) (c : ascii) : Z :=
  Z.lxor ((hash * prime32) mod 2 ^ 32) (byte_val c).

Definition New32 : Z := offset32.

(** [(s *sum32) Write(data)]: the new state, [len(data)] and the error,
    which is always [nil]. *)
Definition Write (s : Z) (data : list ascii) : Z * (Z * option error) :=
  (fold_left step data s, (Z.of_nat (length data), None)).

Definition Sum32 (s : Z) : Z := s.

End fnv.

(** [fmt.Sprintf("%d", n)] for an unsigned [n]. *)
Definition Sprintf_d (n : Z) : string :=
  NilEmpty.string_of_uint (N.to_uint (Z.to_N n)).

(** [[]byte(s)]. *)
Definition bytes_of (s : string) : list ascii := list_ascii_of_string s.

Section Fingerprint.

(** [json.Marshal] on [*api.Options].  Its output depends on the field
    tags of [api.Options], whose declaration is not among the sources. *)
Variable json_Marshal : Options -> list ascii * option error.

Definition CalculateHashIndex (imageURL : string) (opts : Options)
    : string * option error :=
  let (opsJson, err) := json_Marshal opts in
  match err with
  | Some e => (EmptyString, Some (ErrMarshalOptions e))
  | None =>
      let hash := fnv.New32 in
      let '(hash', (_, err')) := fnv.Write hash (opsJson ++ bytes_of imageURL) in
      match err' with
      | Some e => (EmptyString, Some (ErrCalculateHash e))
      | None => (Sprintf_d (fnv.Sum32 hash'), None)
      end
  end.

End Fingerprint.

(** ** The options as they are in memory

    [CalculateHashIndex] receives [opts *api.Options], a struct whose
    three pins and whose matcher are pointers.  Above, the selection reads
    such a struct through [Options], where a pointer field is known by
    what it points to.  Below, the fields are addresses, so that two
    structs can hold equal values at different addresses. *)

Definition loc : Type := positive.

(** What the addresses hold.  A pointer that is not [nil] always points
    to a value. *)
Record Memory := mkMemory {
  int64_at : loc -> Z;
  regexp_at : loc -> regexp.Regexp;
}.

Record OptionsStruct := mkOptionsStruct {
  sUseSHA : bool;
  sUsePreRelease : bool;
  sPinMajor : option loc;
  sPinMinor : option loc;
  sPinPatch : option loc;
  sRegexMatcher : option loc;
}.

(** The struct read through its pointers. *)
Definition load (m : Memory) (o : OptionsStruct) : Options :=
  mkOptions (sUseSHA o) (sUsePreRelease o)
    (int64_at m <$> sPinMajor o)
    (int64_at m <$> sPinMinor o)
    (int64_at m <$> sPinPatch o)
    (regexp_at m <$> sRegexMatcher o).

(** ** The external package [encoding/json], on [*api.Options]

    [json.Marshal] writes a struct as an object with one member for each
    field, in the order of the declaration.  A field tagged ["-"] has no
    member; a field tagged [omitempty] has none when it is [false] or a
    [nil] pointer.  A [nil] pointer is written [null], any other pointer
    as the value it points to; a boolean as [true] or [false]; an [int64]
    in decimal.  The declaration of [api.Options], with its tags, is not
    among the sources: the fields that have a member, their order, the
    bytes written for their names and their [omitempty] flags are the
    parameter [Encoding], and so is the encoding of a [regexp.Regexp],
    which is not the same in every release of Go. *)

Module json.

Inductive FieldId :=
| FUseSHA | FUsePreRelease | FPinMajor | FPinMinor | FPinPatch | FRegexMatcher.

Record Field := mkField {
  id : FieldId;
  (* the name as it is written, quotes included *)
  key : list ascii;
  omitempty : bool;
}.

Record Encoding := mkEncoding {
  fields : list Field;
  encode_regexp : regexp.Regexp -> list ascii * option error;
}.

Definition encode_bool (b : bool) : list ascii :=
  list_ascii_of_string (if b then "true" else "false").

(** [strconv.AppendInt(b, x, 10)]. *)
Definition encode_int64 (x : Z) : list ascii :=
  list_ascii_of_string (NilEmpty.string_of_int (Z.to_int x)).

Definition null : list ascii := list_ascii_of_string "null".

(** A member [name:value], with the error of its encoding. *)
Definition member_of (f : Field) (v : list ascii * option error)
    : list ascii * option error :=
  (key f ++ ":"%char :: fst v, snd v).

(** The member of a pointer field: none for an omitted [nil], [null] for
    any other [nil], the value pointed to otherwise. *)
Definition pointer_member {A} (f : Field) (p : option loc) (at_ : loc -> A)
    (encode : A -> list ascii * option error)
    : option (list ascii * option error) :=
  match p with
  | None => if omitempty f then None else Some (member_of f (null, None))
  | Some a => Some (member_of f (encode (at_ a)))
  end.

Definition bool_member (f : Field) (b : bool)
    : option (list ascii * option error) :=
  if (omitempty f && negb b)%bool then None
  else Some (member_of f (encode_bool b, None)).

(** The member of one field of the struct at [o], if it has one. *)
Definition member (enc : Encoding) (m : Memory) (o : OptionsStruct)
    (f : Field) : option (list ascii * option error) :=
  match id f with
  | FUseSHA => bool_member f (sUseSHA o)
  | FUsePreRelease => bool_member f (sUsePreRelease o)
  | FPinMajor =>
      pointer_member f (sPinMajor o) (int64_at m)
        (fun x => (encode_int64 x, None))
  | FPinMinor =>
      pointer_member f (sPinMinor o) (int64_at m)
        (fun x => (encode_int64 x, None))
  | FPinPatch =>
      pointer_member f (sPinPatch o) (int64_at m)
        (fun x => (encode_int64 x, None))
  | FRegexMatcher =>
      pointer_member f (sRegexMatcher o) (regexp_at m) (encode_regexp enc)
  end.

(** The members separated by commas, up to the first that fails. *)
Fixpoint join (first : bool) (ms : list (list ascii * option error))
    : list ascii * option error :=
  match ms with
  | [] => ([], None)
  | (bytes, Some e) :: _ => ([], Some e)
  | (bytes, None) :: ms' =>
      match join false ms' with
      | (_, Some e) => ([], Some e)
      | (rest, None) =>
          ((if first then bytes else ","%char :: bytes) ++ rest, None)
      end
  end.

Definition Marshal (enc : Encoding) (m : Memory) (o : OptionsStruct)
    : list ascii * option error :=
  match join true (omap (member enc m o) (fields enc)) with
  | (_, Some e) => ([], Some e)
  | (body, None) => ("{"%char :: body ++ ["}"%char], None)
  end.

End json.

(** [CalculateHashIndex] on the struct at [opts] in the memory [m]. *)
Definition CalculateHashIndex_at (enc : json.Encoding) (m : Memory)
    (imageURL : string) (opts : OptionsStruct) : string * option error :=
  let (opsJson, err) := json.Marshal enc m opts in
  match err with
  | Some e => (EmptyString, Some (ErrMarshalOptions e))
  | None =>
      let hash := fnv.New32 in
      let '(hash', (_, err')) := fnv.Write hash (opsJson ++ bytes_of imageURL) in
      match err' with
      | Some e => (EmptyString, Some (ErrCalculateHash e))
      | None => (Sprintf_d (fnv.Sum32 hash'), None)
      end
  end.

(** ** The vocabulary of the specification *)

(** Section 4.3: a tag survives the filters when its text parses, the
    configured pattern (if any) matches the raw text, a pre-release
    component is present only if [UsePreRelease] is set, and every pin that
    is set equals its component.  [survives] gives the parsed version of a
    tag that survives. *)
Definition pin_ok (pin : option Z) (x : Z) : bool :=
  match pin with
  | Some p => x =? p
  | None => true
  end.

Definition passes_filters (opts : Options) (t : ImageTag) (v : semver.Version)
    : bool :=
  (match RegexMatcher opts with
   | Some re => regexp.MatchString re (Tag t)
   | None => true
   end
   && (UsePreRelease opts || String.eqb (semver.pre v) EmptyString)
   && pin_ok (PinMajor opts) (semver.major v)
   && pin_ok (PinMinor opts) (semver.minor v)
   && pin_ok (PinPatch opts) (semver.patch v))%bool.

Definition survives (opts : Options) (t : ImageTag) : option semver.Version :=
  match semver.NewVersion (Tag t) with
  | inl v => if passes_filters opts t v then Some v else None
  | inr _ => None
  end.

Definition survivors (opts : Options) (tags : list ImageTag)
    : list semver.Version :=
  omap (survives opts) tags.

(** The tag text is not a semantic version: [NewVersion] answers
    [ErrInvalidSemVer]. *)
Definition not_semver (t : ImageTag) : bool :=
  match semver.NewVersion (Tag t) with
  | inr semver.ErrInvalidSemVer => true
  | _ => false
  end.

(** The tag text fails to parse, whatever the error. *)
Definition unparsable (t : ImageTag) : bool :=
  match semver.NewVersion (Tag t) with
  | inr _ => true
  | inl _ => false
  end.

(** The tag text has the shape of a version, and a segment of it does not
    fit [int64]: [NewVersion] answers an error that is not
    [ErrInvalidSemVer]. *)
Definition segment_error (t : ImageTag) : option semver.ParseError :=
  match semver.NewVersion (Tag t) with
  | inr (semver.ErrSegment e) => Some (semver.ErrSegment e)
  | _ => None
  end.

Definition no_segment_error (tags : list ImageTag) : bool :=
  forallb (fun t => match segment_error t with
                    | None => true
                    | Some _ => false
                    end) tags.

(** What a caller sees of a result: the tag pointed to, and the error. *)
Definition view (r : ImageTagPtr * option error)
    : option ImageTag * option error :=
  (snd <$> fst r, snd r).

(** A comparison behaves as a strict weak ordering on the elements of a
    list: asymmetric, transitive, and with a transitive incomparability. *)
Definition ordered3 {K} (lt : K -> K -> bool) (a b c : K) : bool :=
  (negb (lt a b && lt b a)
   && implb (lt a b && lt b c) (lt a c)
   && implb (lt a b) (lt a c || lt c b))%bool.

Definition strict_weak_on {K} (lt : K -> K -> bool) (ks : list K) : bool :=
  forallb (fun a => forallb (fun b => forallb (ordered3 lt a b) ks) ks) ks.

(** A left-to-right scan for the first greatest element: the entries that
    are [None] are passed over, and the running best is replaced only by a
    strictly greater element.  Both selection loops are instances. *)
Fixpoint scan {K} (lt : K -> K -> bool) (i : nat) (ks : list (option K))
    (best : option (nat * K)) : option (nat * K) :=
  match ks with
  | [] => best
  | None :: ks' => scan lt (S i) ks' best
  | Some k :: ks' =>
      scan lt (S i) ks'
        (match best with
         | None => Some (i, k)
         | Some (_, b) => if lt b k then Some (i, k) else best
         end)
  end.

(** [best] is the first greatest element of [l]: it is an entry of [l],
    no entry is strictly greater, and every entry before it is strictly
    smaller.  When [l] has no entry at all, [best] is [None]. *)
Definition first_max {K} (lt : K -> K -> bool) (l : list (option K))
    (best : option (nat * K)) : Prop :=
  match best with
  | None => forall j k, l !! j <> Some (Some k)
  | Some (i, k) =>
      l !! i = Some (Some k) /\
      forall j k', l !! j = Some (Some k') ->
        lt k k' = false /\ ((j < i)%nat -> lt k' k = true)
  end.

(** Section 4.4: the FNV-1 hash of 32 bits, byte by byte from the offset
    basis: multiply by the prime modulo [2^32], then xor the byte. *)
Fixpoint fnv1_32_rev (rev_data : list ascii) : Z :=
  match rev_data with
  | [] => 2166136261
  | c :: rest =>
      Z.lxor ((fnv1_32_rev rest * 16777619) mod 4294967296)
             (Z.of_N (N_of_ascii c))
  end.

Definition fnv1_32 (data : list ascii) : Z := fnv1_32_rev (rev data).

(** The writer form of the lock is held at every [EvMapWrite] of a trace;
    [held] says whether it is held at the start. *)
Fixpoint writes_locked (held : bool) (tr : list Event) : bool :=
  match tr with
  | [] => true
  | EvLock :: tr' => writes_locked true tr'
  | EvUnlock :: tr' => writes_locked false tr'
  | EvMapWrite _ :: tr' => (held && writes_locked held tr')%bool
  | _ :: tr' => writes_locked held tr'
  end.

Definition is_client_call (e : Event) : bool :=
  match e with
  | EvIsClient _ _ | EvTags _ _ => true
  | _ => false
  end.

(** The two loops as scans.  For [latestSemver] the entries are the tags
    that survive, each with its parsed version, compared by [LessThan]; for
    [latestSHA] every tag is an entry, compared by [Timestamp]. *)
Definition semver_entries (opts : Options) (tags : list ImageTag)
    : list (option (ImageTag * semver.Version)) :=
  (fun t => pair t <$> survives opts t) <$> tags.

Definition version_lt (a b : ImageTag * semver.Version) : bool :=
  semver.LessThan (snd a) (snd b).

Definition semver_result (opts : Options)
    (best : option (nat * (ImageTag * semver.Version)))
    : ImageTagPtr * option error :=
  match best with
  | None => (None, Some (ErrNoImageFound opts))
  | Some (i, (t, _)) => (Some (i, t), None)
  end.

Definition timestamp_lt (a b : ImageTag) : bool :=
  time.After (Timestamp b) (Timestamp a).

Definition sha_result (best : option (nat * ImageTag))
    : ImageTagPtr * option error :=
  match best with
  | None => (None, Some ErrLatestSHA)
  | Some p => (Some p, None)
  end.

(** The order of release versions: by major, then minor, then patch. *)
Definition release_lt (a b : semver.Version) : Prop :=
  semver.major a < semver.major b \/
  (semver.major a = semver.major b /\
   (semver.minor a < semver.minor b \/
    (semver.minor a = semver.minor b /\ semver.patch a < semver.patch b))).

(** The events of [w'] that [w] does not have yet. *)
Definition new_events (w w' : World) : list Event :=
  drop (length (events w)) (events w').

Definition is_map_write (e : Event) : bool :=
  match e with
  | EvMapWrite _ => true
  | _ => false
  end.

(** Two option structs, each in its memory, are structurally equal: the
    flags are equal, and each pointer field is [nil] in both or points, in
    both, to equal values; the addresses need not be the same. *)
Definition same_pointee {A} (at1 at2 : loc -> A) (p1 p2 : option loc)
    : Prop :=
  match p1, p2 with
  | None, None => True
  | Some a1, Some a2 => at1 a1 = at2 a2
  | _, _ => False
  end.

Definition structurally_equal_at (m1 : Memory) (o1 : OptionsStruct)
    (m2 : Memory) (o2 : OptionsStruct) : Prop :=
  sUseSHA o1 = sUseSHA o2 /\
  sUsePreRelease o1 = sUsePreRelease o2 /\
  same_pointee (int64_at m1) (int64_at m2) (sPinMajor o1) (sPinMajor o2) /\
  same_pointee (int64_at m1) (int64_at m2) (sPinMinor o1) (sPinMinor o2) /\
  same_pointee (int64_at m1) (int64_at m2) (sPinPatch o1) (sPinPatch o2) /\
  same_pointee (regexp_at m1) (regexp_at m2)
    (sRegexMatcher o1) (sRegexMatcher o2).

(** [s] is the decimal rendering of [n]: it is not empty, its bytes are
    decimal digits whose value, most significant first, is [n], and it has
    no leading zero, the single digit of zero apart. *)
Definition decimal_rendering (s : string) (n : Z) : Prop :=
  s <> EmptyString /\
  strconv.digits_from 0 s = Some n /\
  (forall s', s = String "0" s' -> s' = EmptyString).

(** ** Sample data *)

Module Sample.

Definition tag (s : string) (ts : time.Time) : ImageTag :=
  mkImageTag s EmptyString ts.

Definition defaults : Options := mkOptions false false None None None None.

Definition with_prerelease : Options :=
  mkOptions false true None None None None.

Definition sha_only : Options := mkOptions true false None None None None.

Definition leading_v : regexp.Regexp :=
  regexp.mkRegexp (fun s => String.prefix "v" s).

Definition sha_and_pins : Options :=
  mkOptions true true (Some 1) (Some 2) None (Some leading_v).

(** The byte of a double quote. *)
Definition quote : ascii := ascii_of_nat 34.

Definition quoted (name : string) : list ascii :=
  quote :: list_ascii_of_string name ++ [quote].

(** An encoding with every field but the matcher, the pins omitted when
    [nil]. *)
Definition encoding : json.Encoding :=
  json.mkEncoding
    [json.mkField json.FUseSHA (quoted "use-sha") false;
     json.mkField json.FUsePreRelease (quoted "use-prerelease") true;
     json.mkField json.FPinMajor (quoted "pin-major") true;
     json.mkField json.FPinMinor (quoted "pin-minor") false;
     json.mkField json.FPinPatch (quoted "pin-patch") false]
    (fun _ => (list_ascii_of_string "{}", None)).

(** The same options twice, at addresses of their own in memories of
    their own. *)
Definition memory1 : Memory :=
  mkMemory (fun a => if (a =? 1)%positive then 1 else 2) (fun _ => leading_v).

Definition struct1 : OptionsStruct :=
  mkOptionsStruct true true (Some 1%positive) (Some 2%positive) None
    (Some 3%positive).

Definition memory2 : Memory :=
  mkMemory (fun a => if (a =? 8)%positive then 2 else 1) (fun _ => leading_v).

Definition struct2 : OptionsStruct :=
  mkOptionsStruct true true (Some 7%positive) (Some 8%positive) None
    (Some 9%positive).

Definition mixed : list ImageTag :=
  [tag "1.2.3" 10; tag "1.3.0" 20; tag "1.3.0-beta" 30; tag "abc" 40].

(** One tag whose major segment does not fit [int64]. *)
Definition overflowing : list ImageTag :=
  [tag "1.0.0" 10; tag "99999999999999999999.0.0" 20].

Definition quay_client : ImageClient :=
  mkImageClient (fun u => String.prefix "quay.io/" u)
    (fun _ _ => ([tag "v3.4.1" 5], None)).

Definition gcr_client : ImageClient :=
  mkImageClient (fun u => String.prefix "gcr.io/" u)
    (fun _ _ => ([], None)).

Definition docker_client : ImageClient :=
  mkImageClient (fun u => String.prefix "docker.io/" u)
    (fun _ u =>
       if String.eqb u "docker.io/down"
       then ([], Some (ErrRegistry "connection refused"))
       else (mixed, None)).

Definition cold : World :=
  mkWorld (mkVersionGetter quay_client docker_client gcr_client 1000 ∅)
    100 [].

Definition warm : World :=
  mkWorld (mkVersionGetter quay_client docker_client gcr_client 1000
             {[ "docker.io/nginx"%string := mkImageCacheItem 50 mixed ]})
    100 [].

(** A stand-in for [json.Marshal]: the two flags and the pins, one
    after the other. *)
Definition marshal (o : Options) : list ascii * option error :=
  let flag (b : bool) := if b then "1"%char else "0"%char in
  let pin (p : option Z) :=
    match p with
    | Some n => list_ascii_of_string (Sprintf_d n)
    | None => ["n"%char]
    end in
  ([flag (UseSHA o); flag (UsePreRelease o)]
     ++ pin (PinMajor o) ++ [","%char] ++ pin (PinMinor o)
     ++ [","%char] ++ pin (PinPatch o), None).

End Sample.

(** ** Vocabulary of the further properties *)

(** Every entry of the cache holds at least one tag. *)
Definition cache_nonempty (c : gmap string imageCacheItem) : Prop :=
  forall k it, c !! k = Some it -> tags it <> [].

(** The same world when the clock reads [now]. *)
Definition at_time (now : time.Time) (w : World) : World :=
  mkWorld (vg w) now (events w).

Definition is_tags_call (e : Event) : bool :=
  match e with
  | EvTags _ _ => true
  | _ => false
  end.

Definition is_IsClient_call (e : Event) : bool :=
  match e with
  | EvIsClient _ _ => true
  | _ => false
  end.

(** The client that the [switch] of [clientFromImage] selects, and the
    predicate calls it makes on the way. *)
Definition dispatch (v : VersionGetter) (imageURL : string) : Registry :=
  if IsClient (quay v) imageURL then Quay
  else if IsClient (gcr v) imageURL then Gcr
  else Docker.

Definition dispatch_trace (v : VersionGetter) (imageURL : string)
    : list Event :=
  EvIsClient Quay imageURL ::
  (if IsClient (quay v) imageURL then []
   else EvIsClient Gcr imageURL ::
        (if IsClient (gcr v) imageURL then []
         else [EvIsClient Docker imageURL])).

(** [t] at index [i] is the first tag of [l] with the latest
    [Timestamp]. *)
Definition latest_at (l : list ImageTag) (i : nat) (t : ImageTag) : Prop :=
  l !! i = Some t /\
  forall j t', l !! j = Some t' ->
    Timestamp t' <= Timestamp t /\
    ((j < i)%nat -> Timestamp t' < Timestamp t).

(* ===================================================================== *)
(** * Properties *)
(* ===================================================================== *)

(** ** The scan for the first greatest element *)

Section FirstMax.

Context {K : Type} (lt : K -> K -> bool) (P : K -> Prop).

Hypothesis lt_asym :
  forall a b, P a -> P b -> lt a b = true -> lt b a = false.
Hypothesis lt_trans :
  forall a b c, P a -> P b -> P c ->
    lt a b = true -> lt b c = true -> lt a c = true.
Hypothesis lt_negtrans :
  forall a b c, P a -> P b -> P c ->
    lt a b = true -> lt a c = true \/ lt c b = true.

Lemma lt_irrefl a : P a -> lt a a = false.
Proof.
  intros Ha. destruct (lt a a) eqn:E; [|reflexivity].
  rewrite <- E. apply lt_asym; assumption.
Qed.

Lemma first_max_skip pre best :
  first_max lt pre best -> first_max lt (pre ++ [None]) best.
Proof.
  destruct best as [[i k]|]; simpl.
  - intros [Hi Hall]. split.
    + apply lookup_app_l_Some. exact Hi.
    + intros j k' Hj. apply Hall.
      apply lookup_snoc_Some in Hj as [[_ Hj]|[_ Hj]]; [exact Hj|discriminate].
  - intros Hall j k Hj.
    apply lookup_snoc_Some in Hj as [[_ Hj]|[_ Hj]]; [|discriminate].
    exact (Hall _ _ Hj).
Qed.

Lemma first_max_take pre best k :
  (forall k', Some k' ∈ pre ++ [Some k] -> P k') ->
  first_max lt pre best ->
  first_max lt (pre ++ [Some k])
    (match best with
     | None => Some (length pre, k)
     | Some (_, b) => if lt b k then Some (length pre, k) else best
     end).
Proof.
  intros HP Hb.
  assert (Pk : P k) by (apply HP; set_solver).
  assert (Ppre : forall j k', pre !! j = Some (Some k') -> P k').
  { intros j k' Hj. apply HP. apply elem_of_app. left.
    eapply list_elem_of_lookup_2. exact Hj. }
  destruct best as [[i b]|]; simpl in *.
  - destruct Hb as [Hi Hall].
    assert (Pb : P b) by (eapply Ppre; exact Hi).
    assert (Hlt_i : (i < length pre)%nat) by (eapply lookup_lt_Some; exact Hi).
    destruct (lt b k) eqn:Hbk; simpl.
    + split; [apply list_lookup_middle; reflexivity|].
      intros j k' Hj.
      apply lookup_snoc_Some in Hj as [[Hlen Hj]|[Hlen Hj]].
      * assert (Pk' : P k') by (eapply Ppre; exact Hj).
        destruct (Hall _ _ Hj) as [Hnot _].
        assert (Hk'k : lt k' k = true).
        { destruct (lt_negtrans b k k' Pb Pk Pk' Hbk) as [H|H];
            [congruence|exact H]. }
        split; [apply lt_asym; assumption|intros _; exact Hk'k].
      * injection Hj as ->. split; [apply lt_irrefl; exact Pk|lia].
    + split; [apply lookup_app_l_Some; exact Hi|].
      intros j k' Hj.
      apply lookup_snoc_Some in Hj as [[Hlen Hj]|[Hlen Hj]].
      * exact (Hall _ _ Hj).
      * injection Hj as ->. split; [exact Hbk|lia].
  - split; [apply list_lookup_middle; reflexivity|].
    intros j k' Hj.
    apply lookup_snoc_Some in Hj as [[Hlen Hj]|[Hlen Hj]].
    + exfalso. exact (Hb _ _ Hj).
    + injection Hj as ->. split; [apply lt_irrefl; exact Pk|lia].
Qed.

Lemma scan_first_max ks :
  forall pre best,
    (forall k, Some k ∈ pre ++ ks -> P k) ->
    first_max lt pre best ->
    first_max lt (pre ++ ks) (scan lt (length pre) ks best).
Proof.
  induction ks as [|x ks IH]; intros pre best HP Hb; simpl.
  - rewrite app_nil_r. exact Hb.
  - assert (Hsplit : pre ++ x :: ks = (pre ++ [x]) ++ ks)
      by (rewrite <- app_assoc; reflexivity).
    assert (Hlen : S (length pre) = length (pre ++ [x]))
      by (rewrite length_app; simpl; lia).
    rewrite Hsplit in *. rewrite Hlen.
    destruct x as [k|].
    + apply IH; [exact HP|].
      apply first_max_take; [|exact Hb].
      intros k' Hk'. apply HP. apply elem_of_app. left. exact Hk'.
    + apply IH; [exact HP|]. apply first_max_skip. exact Hb.
Qed.

End FirstMax.

Lemma strict_weak_on_ordered3 {K} (lt : K -> K -> bool) (ks : list K) a b c :
  strict_weak_on lt ks = true ->
  a ∈ ks -> b ∈ ks -> c ∈ ks -> ordered3 lt a b c = true.
Proof.
  unfold strict_weak_on. intros H Ha Hb Hc.
  rewrite forallb_forall in H.
  specialize (H a (proj1 (list_elem_of_In _ _) Ha)).
  rewrite forallb_forall in H.
  specialize (H b (proj1 (list_elem_of_In _ _) Hb)).
  rewrite forallb_forall in H.
  exact (H c (proj1 (list_elem_of_In _ _) Hc)).
Qed.

Lemma ordered3_asym {K} (lt : K -> K -> bool) a b c :
  ordered3 lt a b c = true -> lt a b = true -> lt b a = false.
Proof.
  unfold ordered3. destruct (lt a b), (lt b a); simpl; congruence.
Qed.

Lemma ordered3_trans {K} (lt : K -> K -> bool) a b c :
  ordered3 lt a b c = true -> lt a b = true -> lt b c = true -> lt a c = true.
Proof.
  unfold ordered3.
  destruct (lt a b), (lt b a), (lt b c), (lt a c); simpl; congruence.
Qed.

Lemma ordered3_negtrans {K} (lt : K -> K -> bool) a b c :
  ordered3 lt a b c = true ->
  lt a b = true -> lt a c = true \/ lt c b = true.
Proof.
  unfold ordered3.
  destruct (lt a b), (lt b a), (lt b c), (lt a c), (lt c b); simpl;
    intros; try congruence; auto.
Qed.

(** On a list whose entries the comparison orders, through a projection
    [f], as a strict weak ordering, the scan from the start finds the first
    greatest entry. *)
Lemma scan_from_start {K V} (lt : V -> V -> bool) (f : K -> V)
    (ks : list (option K)) :
  strict_weak_on lt (f <$> omap id ks) = true ->
  first_max (fun a b => lt (f a) (f b)) ks
    (scan (fun a b => lt (f a) (f b)) 0 ks None).
Proof.
  intros Hswo.
  pose (P := fun k : K => f k ∈ f <$> omap id ks).
  apply (scan_first_max _ P) with (pre := []) (best := None).
  - intros a b Ha Hb. eapply ordered3_asym with (c := f a).
    apply (strict_weak_on_ordered3 lt (f <$> omap id ks)); assumption.
  - intros a b c Ha Hb Hc. apply ordered3_trans.
    apply (strict_weak_on_ordered3 lt (f <$> omap id ks)); assumption.
  - intros a b c Ha Hb Hc. apply ordered3_negtrans.
    apply (strict_weak_on_ordered3 lt (f <$> omap id ks)); assumption.
  - simpl. intros k Hk. unfold P. apply list_elem_of_fmap_2.
    apply list_elem_of_omap.
    exists (Some k). split; [exact Hk|reflexivity].
  - simpl. intros j k Hj. rewrite lookup_nil in Hj. discriminate.
Qed.

(** ** [latestSemver] *)

(** The chain of [continue] tests of the loop body is the negation of
    [passes_filters]. *)
Lemma filters_chain {A} (opts : Options) (t : ImageTag) (v : semver.Version)
    (skip take : A) :
  (if regex_rejects opts (Tag t) then skip
   else if (negb (String.eqb (semver.Prerelease v) EmptyString)
            && negb (UsePreRelease opts))%bool then skip
   else if pin_differs (PinMajor opts) (semver.Major v) then skip
   else if pin_differs (PinMinor opts) (semver.Minor v) then skip
   else if pin_differs (PinPatch opts) (semver.Patch v) then skip
   else take)
  = if passes_filters opts t v then take else skip.
Proof.
  unfold passes_filters, regex_rejects, pin_differs, pin_ok,
    semver.Prerelease, semver.Major, semver.Minor, semver.Patch.
  destruct (RegexMatcher opts) as [re|], (PinMajor opts) as [p1|],
    (PinMinor opts) as [p2|], (PinPatch opts) as [p3|];
    repeat match goal with
           | |- context [regexp.MatchString ?r ?x] =>
               destruct (regexp.MatchString r x)
           | |- context [String.eqb ?x ?y] => destruct (String.eqb x y)
           | |- context [UsePreRelease ?o] => destruct (UsePreRelease o)
           | |- context [Z.eqb ?x ?y] => destruct (Z.eqb x y)
           end; reflexivity.
Qed.

Lemma survives_inl opts t v :
  semver.NewVersion (Tag t) = inl v ->
  survives opts t = if passes_filters opts t v then Some v else None.
Proof. unfold survives. intros ->. reflexivity. Qed.

Lemma survives_inr opts t e :
  semver.NewVersion (Tag t) = inr e -> survives opts t = None.
Proof. unfold survives. intros ->. reflexivity. Qed.

(** Without a segment error the loop of [latestSemver] is the scan over
    the surviving tags; the two loop variables are the two halves of the
    running best. *)
Lemma latestSemver_loop_scan opts rest :
  forall i best,
    no_segment_error rest = true ->
    latestSemver_loop opts i rest
      ((fun '(j, (t, _)) => (j, t)) <$> best)
      ((fun '(_, (_, v)) => v) <$> best)
    = semver_result opts (scan version_lt i (semver_entries opts rest) best).
Proof.
  induction rest as [|t rest IH]; intros i best Hno.
  - destruct best as [[j [t v]]|]; reflexivity.
  - simpl in Hno. apply andb_prop in Hno as [Ht Hrest].
    unfold segment_error in Ht.
    cbn [latestSemver_loop]. unfold semver_entries. rewrite fmap_cons.
    fold (semver_entries opts rest).
    destruct (semver.NewVersion (Tag t)) as [v|[|e]] eqn:E.
    + rewrite filters_chain. rewrite (survives_inl _ _ _ E).
      destruct (passes_filters opts t v); cbn [fmap option_fmap option_map scan].
      * destruct best as [[j [tb vb]]|]; cbn [fmap option_fmap option_map].
        -- change (version_lt (tb, vb) (t, v)) with (semver.LessThan vb v).
           destruct (semver.LessThan vb v).
           ++ apply (IH (S i) (Some (i, (t, v))) Hrest).
           ++ apply (IH (S i) (Some (j, (tb, vb))) Hrest).
        -- apply (IH (S i) (Some (i, (t, v))) Hrest).
      * apply IH. exact Hrest.
    + rewrite (survives_inr _ _ _ E). cbn [fmap option_fmap option_map scan].
      apply IH. exact Hrest.
    + discriminate Ht.
Qed.

Lemma semver_entries_lookup opts tags j t v :
  semver_entries opts tags !! j = Some (Some (t, v)) <->
  tags !! j = Some t /\ survives opts t = Some v.
Proof.
  unfold semver_entries. rewrite list_lookup_fmap.
  destruct (tags !! j) as [t'|]; simpl.
  - destruct (survives opts t') as [v'|] eqn:E; simpl; split.
    + intros H. injection H as <- <-. split; [reflexivity|exact E].
    + intros [H1 H2]. injection H1 as <-. rewrite E in H2.
      injection H2 as <-. reflexivity.
    + discriminate.
    + intros [H1 H2]. injection H1 as <-. rewrite E in H2. discriminate.
  - split; [discriminate|intros [? _]; discriminate].
Qed.

Lemma semver_entries_survivors opts tags :
  snd <$> omap id (semver_entries opts tags) = survivors opts tags.
Proof.
  unfold semver_entries, survivors.
  induction tags as [|t tags IH]; [reflexivity|].
  rewrite fmap_cons. cbn [omap list_omap].
  destruct (survives opts t) as [v|]; simpl.
  - f_equal. exact IH.
  - exact IH.
Qed.

Lemma survivors_nil opts tags :
  survivors opts tags = [] <-> forall t, t ∈ tags -> survives opts t = None.
Proof.
  unfold survivors. split.
  - intros Hnil t Ht. destruct (survives opts t) as [v|] eqn:E; [|reflexivity].
    assert (Hv : v ∈ omap (survives opts) tags)
      by (apply list_elem_of_omap; exists t; split; assumption).
    rewrite Hnil in Hv. inversion Hv.
  - intros Hall. destruct (omap (survives opts) tags) as [|v l] eqn:E;
      [reflexivity|].
    assert (Hv : v ∈ omap (survives opts) tags) by (rewrite E; left).
    apply list_elem_of_omap in Hv as (t & Ht & Hs).
    rewrite (Hall t Ht) in Hs. discriminate.
Qed.

(** The first tag with a segment error ends the loop with that error,
    whatever was selected before it. *)
Lemma latestSemver_loop_segment_error opts before t e after :
  forall i p lv,
    no_segment_error before = true ->
    semver.NewVersion (Tag t) = inr (semver.ErrSegment e) ->
    latestSemver_loop opts i (before ++ t :: after) p lv
    = (None, Some (ErrSemver (semver.ErrSegment e))).
Proof.
  induction before as [|b before IH]; intros i p lv Hno E.
  - cbn [app latestSemver_loop]. rewrite E. reflexivity.
  - simpl in Hno. apply andb_prop in Hno as [Hb Hrest].
    unfold segment_error in Hb.
    cbn [app latestSemver_loop].
    destruct (semver.NewVersion (Tag b)) as [v|[|e']].
    + rewrite filters_chain.
      destruct (passes_filters opts b v);
        [destruct (match lv with
                   | Some l => semver.LessThan l v
                   | None => true
                   end)|];
        apply IH; assumption.
    + apply IH; assumption.
    + discriminate Hb.
Qed.

Lemma segment_error_split tags :
  no_segment_error tags = true \/
  exists before t e after,
    tags = before ++ t :: after /\
    no_segment_error before = true /\
    semver.NewVersion (Tag t) = inr (semver.ErrSegment e).
Proof.
  induction tags as [|t tags IH]; [left; reflexivity|].
  destruct (semver.NewVersion (Tag t)) as [v|[|e]] eqn:E.
  - destruct IH as [IH|(before & t' & e & after & -> & Hb & Ht)].
    + left. simpl. unfold segment_error. rewrite E. exact IH.
    + right. exists (t :: before), t', e, after.
      repeat split; [|exact Ht]. simpl. unfold segment_error. rewrite E.
      exact Hb.
  - destruct IH as [IH|(before & t' & e & after & -> & Hb & Ht)].
    + left. simpl. unfold segment_error. rewrite E. exact IH.
    + right. exists (t :: before), t', e, after.
      repeat split; [|exact Ht]. simpl. unfold segment_error. rewrite E.
      exact Hb.
  - right. exists [], t, e, tags. repeat split. exact E.
Qed.

(** C1, as amended.  Let [LessThan] order the surviving versions of a tag
    list as a strict weak ordering.  Then [latestSemver] returns one of
    three things.  If the text of some tag has a segment that does not fit
    [int64], the parse error of the first such tag.  Otherwise, if no tag
    survives the filters, the no-match error.  Otherwise a pointer to a
    surviving tag such that no surviving version is strictly greater than
    its version and every surviving tag before it has a strictly smaller
    version. *)
Theorem latestSemver_first_greatest (opts : Options) (tags : list ImageTag) :
  strict_weak_on semver.LessThan (survivors opts tags) = true ->
  (exists before t e after,
     tags = before ++ t :: after /\
     no_segment_error before = true /\
     semver.NewVersion (Tag t) = inr (semver.ErrSegment e) /\
     latestSemver opts tags = (None, Some (ErrSemver (semver.ErrSegment e))))
  \/
  (no_segment_error tags = true /\
   survivors opts tags = [] /\
   latestSemver opts tags = (None, Some (ErrNoImageFound opts)))
  \/
  (no_segment_error tags = true /\
   exists i t v,
     latestSemver opts tags = (Some (i, t), None) /\
     tags !! i = Some t /\
     survives opts t = Some v /\
     forall j t' v',
       tags !! j = Some t' -> survives opts t' = Some v' ->
       semver.LessThan v v' = false /\
       ((j < i)%nat -> semver.LessThan v' v = true)).
Proof.
  intros Hswo.
  destruct (segment_error_split tags)
    as [Hno|(before & t & e & after & Htags & Hb & Ht)].
  2:{ left. exists before, t, e, after. repeat split; try assumption.
      rewrite Htags. unfold latestSemver.
      apply latestSemver_loop_segment_error; assumption. }
  right.
  unfold latestSemver.
  pose proof (latestSemver_loop_scan opts tags 0 None Hno) as Hscan.
  cbn [fmap option_fmap option_map] in Hscan. rewrite Hscan. clear Hscan.
  rewrite <- semver_entries_survivors in Hswo.
  pose proof (scan_from_start semver.LessThan snd _ Hswo) as Hmax.
  fold version_lt in Hmax.
  destruct (scan version_lt 0 (semver_entries opts tags) None)
    as [[i [t v]]|]; simpl in *.
  - right. split; [exact Hno|]. exists i, t, v. destruct Hmax as [Hi Hall].
    apply semver_entries_lookup in Hi as [Hi Hs].
    repeat split; try assumption.
    + apply (Hall j (t', v')). apply semver_entries_lookup. split; assumption.
    + apply (Hall j (t', v')). apply semver_entries_lookup. split; assumption.
  - left. split; [exact Hno|]. split; [|reflexivity].
    apply survivors_nil. intros t Ht.
    destruct (survives opts t) as [v|] eqn:E; [|reflexivity].
    apply list_elem_of_lookup in Ht as [j Hj].
    exfalso. apply (Hmax j (t, v)). apply semver_entries_lookup.
    split; assumption.
Qed.

Lemma latestSemver_first_greatest_witness :
  strict_weak_on semver.LessThan
    (survivors Sample.with_prerelease Sample.mixed) = true /\
  exists i t v,
    latestSemver Sample.with_prerelease Sample.mixed = (Some (i, t), None) /\
    Sample.mixed !! i = Some t /\
    survives Sample.with_prerelease t = Some v /\
    forall j t' v',
      Sample.mixed !! j = Some t' ->
      survives Sample.with_prerelease t' = Some v' ->
      semver.LessThan v v' = false /\
      ((j < i)%nat -> semver.LessThan v' v = true).
Proof.
  split; [vm_compute; reflexivity|].
  destruct (latestSemver_first_greatest Sample.with_prerelease Sample.mixed)
    as [(before & t & e & after & _ & _ & _ & Hres)
       |[(_ & _ & Hres)|(_ & Hwin)]].
  - vm_compute. reflexivity.
  - exfalso. vm_compute in Hres. discriminate Hres.
  - exfalso. vm_compute in Hres. discriminate Hres.
  - exact Hwin.
Defined.

(** C1, as stated, fails: one tag survives the filters, and [latestSemver]
    returns neither a tag nor the no-match error, because a later tag has
    a segment that does not fit [int64]. *)
Lemma latestSemver_survivor_without_winner :
  survivors Sample.defaults Sample.overflowing <> [] /\
  latestSemver Sample.defaults Sample.overflowing
  = (None, Some (ErrSemver (semver.ErrSegment strconv.ErrRange))).
Proof. split; [vm_compute; discriminate|vm_compute; reflexivity]. Qed.

(** ** Tags that are not semantic versions *)

Lemma latestSemver_loop_skips opts rest :
  forall i i' p p' lv,
    snd <$> p = snd <$> p' ->
    view (latestSemver_loop opts i rest p lv)
    = view (latestSemver_loop opts i'
              (List.filter (fun t => negb (not_semver t)) rest) p' lv).
Proof.
  induction rest as [|t rest IH]; intros i i' p p' lv Hp.
  - cbn [List.filter latestSemver_loop].
    destruct p as [[j a]|], p' as [[j' a']|]; simpl in *;
      try discriminate; [|reflexivity].
    injection Hp as ->. reflexivity.
  - cbn [List.filter]. unfold not_semver at 1.
    cbn [latestSemver_loop].
    destruct (semver.NewVersion (Tag t)) as [v|[|e]] eqn:E;
      cbn [negb latestSemver_loop]; try rewrite E.
    + rewrite !filters_chain.
      destruct (passes_filters opts t v);
        [destruct (match lv with
                   | Some l => semver.LessThan l v
                   | None => true
                   end)|];
        apply IH; try assumption; reflexivity.
    + apply IH; assumption.
    + reflexivity.
Qed.

(** C2, as amended.  The tags that [NewVersion] rejects with
    [ErrInvalidSemVer] are passed over: for every tag list the tag selected
    and the error are those of the list without these tags. *)
Theorem latestSemver_skips_not_semver (opts : Options) (tags : list ImageTag) :
  view (latestSemver opts tags)
  = view (latestSemver opts (List.filter (fun t => negb (not_semver t)) tags)).
Proof.
  unfold latestSemver. apply latestSemver_loop_skips. reflexivity.
Qed.

(** C2, as stated, fails: a tag that does not parse because a segment
    overflows is not passed over; the result differs from that on the tags
    that parse. *)
Lemma latestSemver_unparsable_not_skipped :
  view (latestSemver Sample.defaults Sample.overflowing)
  <> view (latestSemver Sample.defaults
             (List.filter (fun t => negb (unparsable t)) Sample.overflowing)).
Proof. vm_compute. discriminate. Qed.

(** ** Release versions are ordered by their three segments *)

Lemma LessThan_release a b :
  semver.pre a = EmptyString -> semver.pre b = EmptyString ->
  (semver.LessThan a b = true <-> release_lt a b).
Proof.
  intros Ha Hb.
  unfold semver.LessThan, semver.Compare, semver.compareSegment,
    semver.Major, semver.Minor, semver.Patch, semver.Prerelease, release_lt.
  rewrite Ha, Hb. simpl.
  destruct (Z.ltb_spec (semver.major a) (semver.major b)),
    (Z.ltb_spec (semver.major b) (semver.major a)),
    (Z.ltb_spec (semver.minor a) (semver.minor b)),
    (Z.ltb_spec (semver.minor b) (semver.minor a)),
    (Z.ltb_spec (semver.patch a) (semver.patch b)),
    (Z.ltb_spec (semver.patch b) (semver.patch a));
    simpl; split; intros; try discriminate; try reflexivity; lia.
Qed.

Lemma ordered3_release a b c :
  semver.pre a = EmptyString -> semver.pre b = EmptyString ->
  semver.pre c = EmptyString ->
  ordered3 semver.LessThan a b c = true.
Proof.
  intros Ha Hb Hc. unfold ordered3.
  pose proof (LessThan_release a b Ha Hb) as Hab.
  pose proof (LessThan_release b a Hb Ha) as Hba.
  pose proof (LessThan_release b c Hb Hc) as Hbc.
  pose proof (LessThan_release a c Ha Hc) as Hac.
  pose proof (LessThan_release c b Hc Hb) as Hcb.
  unfold release_lt in *.
  destruct (semver.LessThan a b), (semver.LessThan b a),
    (semver.LessThan b c), (semver.LessThan a c), (semver.LessThan c b);
    simpl; try reflexivity; exfalso;
    repeat match goal with
           | H : true = true <-> _ |- _ => apply proj1 in H; specialize (H eq_refl)
           | H : false = true <-> ?Q |- _ =>
               assert (~ Q) by (intros HQ; apply H in HQ; discriminate HQ);
               clear H
           end; lia.
Qed.

Lemma survives_release opts t v :
  UsePreRelease opts = false -> survives opts t = Some v ->
  semver.pre v = EmptyString.
Proof.
  intros Hpre. unfold survives.
  destruct (semver.NewVersion (Tag t)) as [v'|]; [|discriminate].
  destruct (passes_filters opts t v') eqn:Hp; [|discriminate].
  intros [= <-]. unfold passes_filters in Hp. rewrite Hpre in Hp.
  repeat (apply andb_prop in Hp as [Hp ?]).
  simpl in *. apply String.eqb_eq. assumption.
Qed.

(** With [UsePreRelease] unset every surviving version is a release, and
    [LessThan] orders the surviving versions as a strict weak ordering. *)
Lemma survivors_release_ordered opts tags :
  UsePreRelease opts = false ->
  strict_weak_on semver.LessThan (survivors opts tags) = true.
Proof.
  intros Hpre.
  assert (Hrel : forall v, In v (survivors opts tags) ->
                 semver.pre v = EmptyString).
  { intros v Hv. apply list_elem_of_In in Hv.
    apply list_elem_of_omap in Hv as (t & _ & Hs).
    exact (survives_release opts t v Hpre Hs). }
  unfold strict_weak_on.
  apply forallb_forall. intros a Ha.
  apply forallb_forall. intros b Hb.
  apply forallb_forall. intros c Hc.
  apply ordered3_release; apply Hrel; assumption.
Qed.

(** ** [latestSHA] *)

Lemma latestSHA_loop_scan rest :
  forall i best,
    latestSHA_loop i rest best
    = sha_result (scan timestamp_lt i (Some <$> rest) best).
Proof.
  induction rest as [|t rest IH]; intros i best.
  - destruct best; reflexivity.
  - rewrite fmap_cons. cbn [latestSHA_loop scan].
    destruct best as [[j l]|].
    + change (timestamp_lt l t) with (time.After (Timestamp t) (Timestamp l)).
      destruct (time.After (Timestamp t) (Timestamp l)); apply IH.
    + apply IH.
Qed.

Lemma timestamp_lt_iff a b :
  timestamp_lt a b = true <-> Timestamp a < Timestamp b.
Proof. unfold timestamp_lt, time.After. apply Z.ltb_lt. Qed.

Lemma timestamp_lt_false a b :
  timestamp_lt a b = false <-> Timestamp b <= Timestamp a.
Proof. unfold timestamp_lt, time.After. apply Z.ltb_ge. Qed.

Lemma scan_timestamps (ks : list ImageTag) :
  first_max timestamp_lt (Some <$> ks) (scan timestamp_lt 0 (Some <$> ks) None).
Proof.
  apply (scan_first_max timestamp_lt (fun _ => True)) with (pre := []) (best := None).
  - intros a b _ _ H. apply timestamp_lt_iff in H. apply timestamp_lt_false. lia.
  - intros a b c _ _ _ H1 H2. apply timestamp_lt_iff in H1, H2.
    apply timestamp_lt_iff. lia.
  - intros a b c _ _ _ H. apply timestamp_lt_iff in H.
    rewrite !timestamp_lt_iff. lia.
  - intros; exact I.
  - simpl. intros j k Hj. rewrite lookup_nil in Hj. discriminate.
Qed.

(** The index that [latestSHA] selects is a function of the timestamps
    alone. *)
Lemma latestSHA_loop_text_blind rest :
  forall rest' i p p',
    Timestamp <$> rest = Timestamp <$> rest' ->
    (fun '(j, t) => (j, Timestamp t)) <$> p
    = (fun '(j, t) => (j, Timestamp t)) <$> p' ->
    fst <$> fst (latestSHA_loop i rest p)
    = fst <$> fst (latestSHA_loop i rest' p') /\
    snd (latestSHA_loop i rest p) = snd (latestSHA_loop i rest' p').
Proof.
  induction rest as [|t rest IH]; intros [|t' rest'] i p p' Hts Hp;
    try discriminate.
  - destruct p as [[j a]|], p' as [[j' a']|]; simpl in *; try discriminate.
    + injection Hp as -> _. split; reflexivity.
    + split; reflexivity.
  - rewrite !fmap_cons in Hts. injection Hts as Ht Hrest.
    cbn [latestSHA_loop].
    destruct p as [[j a]|], p' as [[j' a']|]; simpl in Hp; try discriminate.
    + injection Hp as -> Ha. rewrite Ht, Ha.
      destruct (time.After (Timestamp t') (Timestamp a')).
      * apply IH; [exact Hrest|simpl; rewrite Ht; reflexivity].
      * apply IH; [exact Hrest|simpl; rewrite Ha; reflexivity].
    + apply IH; [exact Hrest|simpl; rewrite Ht; reflexivity].
Qed.

(** C5.  [latestSHA] returns the error exactly on the empty list; on any
    other list it returns a pointer to a tag whose [Timestamp] no tag
    exceeds and every earlier tag stays strictly below, and the index
    selected is the same for every list with the same timestamps, whatever
    the tag texts. *)
Theorem latestSHA_first_latest (tags : list ImageTag) :
  ((tags = [] /\ latestSHA tags = (None, Some ErrLatestSHA))
   \/
   (exists i t,
      latestSHA tags = (Some (i, t), None) /\
      tags !! i = Some t /\
      forall j t', tags !! j = Some t' ->
        Timestamp t' <= Timestamp t /\
        ((j < i)%nat -> Timestamp t' < Timestamp t)))
  /\
  (forall tags',
     Timestamp <$> tags' = Timestamp <$> tags ->
     fst <$> fst (latestSHA tags') = fst <$> fst (latestSHA tags) /\
     snd (latestSHA tags') = snd (latestSHA tags)).
Proof.
  split.
  - unfold latestSHA. rewrite latestSHA_loop_scan.
    pose proof (scan_timestamps tags) as Hmax.
    destruct (scan timestamp_lt 0 (Some <$> tags) None) as [[i t]|]; simpl in *.
    + right. exists i, t. destruct Hmax as [Hi Hall].
      rewrite list_lookup_fmap in Hi.
      destruct (tags !! i) as [ti|] eqn:Ei; [|discriminate].
      simpl in Hi. injection Hi as ->.
      repeat split; try reflexivity.
      * apply timestamp_lt_false. apply (Hall j t').
        rewrite list_lookup_fmap, H. reflexivity.
      * intros Hj. apply timestamp_lt_iff. apply (Hall j t'); [|exact Hj].
        rewrite list_lookup_fmap, H. reflexivity.
    + left. split; [|reflexivity].
      destruct tags as [|t tags]; [reflexivity|].
      exfalso. apply (Hmax 0%nat t). reflexivity.
  - intros tags' Hts. unfold latestSHA.
    apply latestSHA_loop_text_blind; [exact Hts|reflexivity].
Qed.

(** ** The client dispatcher *)

Ltac run :=
  unfold LatestTagFromImage, allTagsFromImage, tryImageCache, clientFromImage,
    call_Tags, call_IsClient, cache_write, cache_read, get_cacheTimeout,
    time_Now, emit, record, mbind, M_bind, mret, M_ret;
  cbn [fst snd vg clock events client_of].

(** The client selected depends on the getter alone. *)
Lemma clientFromImage_fst imageURL w w' :
  vg w' = vg w ->
  fst (clientFromImage imageURL w') = fst (clientFromImage imageURL w).
Proof.
  intros Hvg. run. rewrite Hvg.
  destruct (IsClient (quay (vg w)) imageURL); cbn; [reflexivity|].
  destruct (IsClient (gcr (vg w)) imageURL); cbn; [reflexivity|].
  destruct (IsClient (docker (vg w)) imageURL); reflexivity.
Qed.

(** C7.  [clientFromImage] asks quay, then gcr, then docker, stops at the
    first that answers [true], and returns it; when none does it returns
    docker.  It leaves the getter as it was. *)
Theorem clientFromImage_priority (imageURL : string) (w : World) :
  let q := IsClient (quay (vg w)) imageURL in
  let g := IsClient (gcr (vg w)) imageURL in
  fst (clientFromImage imageURL w)
  = (if q then Quay else if g then Gcr else Docker)
  /\ vg (snd (clientFromImage imageURL w)) = vg w
  /\ events (snd (clientFromImage imageURL w))
     = events w ++
       EvIsClient Quay imageURL ::
       (if q then [] else
        EvIsClient Gcr imageURL ::
        (if g then [] else [EvIsClient Docker imageURL])).
Proof.
  cbv zeta. run.
  destruct (IsClient (quay (vg w)) imageURL) eqn:Eq; cbn.
  - repeat split; reflexivity.
  - destruct (IsClient (gcr (vg w)) imageURL) eqn:Eg; cbn.
    + repeat split; rewrite <- ?app_assoc; reflexivity.
    + destruct (IsClient (docker (vg w)) imageURL); cbn;
        repeat split; rewrite <- ?app_assoc; reflexivity.
Qed.

(** ** The cache and the fetch *)

Lemma tryImageCache_world imageURL w :
  snd (tryImageCache imageURL w)
  = mkWorld (vg w) (clock w)
      (events w ++ [EvRLock; EvMapRead imageURL; EvRUnlock]).
Proof.
  run. rewrite <- !app_assoc. cbn [app].
  destruct (imageCache (vg w) !! imageURL) as [it|]; [|reflexivity].
  destruct (time.Sub (clock w) (timestamp it) <? cacheTimeout (vg w));
    reflexivity.
Qed.

Lemma clientFromImage_world imageURL w :
  vg (snd (clientFromImage imageURL w)) = vg w /\
  clock (snd (clientFromImage imageURL w)) = clock w /\
  exists tr,
    events (snd (clientFromImage imageURL w)) = events w ++ tr /\
    forallb (fun e => match e with EvIsClient _ _ => true | _ => false end) tr
    = true.
Proof.
  run.
  destruct (IsClient (quay (vg w)) imageURL); cbn;
    [|destruct (IsClient (gcr (vg w)) imageURL); cbn;
      [|destruct (IsClient (docker (vg w)) imageURL); cbn]];
    repeat split; rewrite <- ?app_assoc; eexists; split; reflexivity.
Qed.

(** On a hit the call ends with the lookup. *)
Lemma allTagsFromImage_hit_eq ctx imageURL w cached :
  fst (tryImageCache imageURL w) = (cached, true) ->
  allTagsFromImage ctx imageURL w
  = ((cached, None),
     mkWorld (vg w) (clock w)
       (events w ++ [EvRLock; EvMapRead imageURL; EvRUnlock])).
Proof.
  intros Hhit.
  pose proof (tryImageCache_world imageURL w) as Hw.
  unfold allTagsFromImage, mbind, M_bind.
  destruct (tryImageCache imageURL w) as [[tags ok] w1].
  simpl in Hhit, Hw. injection Hhit as -> ->. subst w1. reflexivity.
Qed.

(** C9.  When the lookup reports a hit, [allTagsFromImage] returns the
    cached tags and no error; all it has done is the lookup: no client was
    asked whether the URL is its own, no tags were fetched, the backing
    map was not written, and the getter, with its cache, is as before. *)
Theorem allTagsFromImage_hit (ctx : context.Context) (imageURL : string)
    (w : World) (cached : list ImageTag) :
  fst (tryImageCache imageURL w) = (cached, true) ->
  fst (allTagsFromImage ctx imageURL w) = (cached, None) /\
  vg (snd (allTagsFromImage ctx imageURL w)) = vg w /\
  new_events w (snd (allTagsFromImage ctx imageURL w))
  = [EvRLock; EvMapRead imageURL; EvRUnlock] /\
  existsb is_client_call (new_events w (snd (allTagsFromImage ctx imageURL w)))
  = false /\
  existsb is_map_write (new_events w (snd (allTagsFromImage ctx imageURL w)))
  = false.
Proof.
  intros Hhit. rewrite (allTagsFromImage_hit_eq ctx imageURL w cached Hhit).
  unfold new_events. cbn [fst snd vg events]. rewrite drop_app_length.
  repeat split; reflexivity.
Qed.

Lemma allTagsFromImage_hit_witness :
  fst (tryImageCache "docker.io/nginx" Sample.warm) = (Sample.mixed, true) /\
  fst (allTagsFromImage context.Background "docker.io/nginx" Sample.warm)
  = (Sample.mixed, None) /\
  vg (snd (allTagsFromImage context.Background "docker.io/nginx" Sample.warm))
  = vg Sample.warm.
Proof.
  split; [vm_compute; reflexivity|].
  destruct (allTagsFromImage_hit context.Background "docker.io/nginx"
              Sample.warm Sample.mixed) as (Hres & Hvg & _).
  - vm_compute. reflexivity.
  - split; assumption.
Defined.

(** What the fetch of a miss brings back: the answer of the client that
    the dispatcher selects. *)
Lemma allTagsFromImage_miss ctx imageURL w :
  snd (fst (tryImageCache imageURL w)) = false ->
  let c := fst (clientFromImage imageURL w) in
  let fetched := Tags (client_of (vg w) c) ctx imageURL in
  exists tr,
    forallb (fun e => match e with EvIsClient _ _ => true | _ => false end) tr
    = true /\
    let w3 := mkWorld (vg w) (clock w)
                (events w ++ [EvRLock; EvMapRead imageURL; EvRUnlock]
                   ++ tr ++ [EvTags c imageURL]) in
    allTagsFromImage ctx imageURL w
    = match snd fetched with
      | Some e => (([], Some (ErrGetTags imageURL e)), w3)
      | None =>
          if (length (fst fetched) =? 0)%nat
          then (([], Some (ErrNoTagsFound imageURL)), w3)
          else ((fst fetched, None),
                mkWorld
                  (set_imageCache
                     (<[imageURL := mkImageCacheItem (clock w) (fst fetched)]>
                        (imageCache (vg w))) (vg w))
                  (clock w)
                  (events w3 ++ [EvDebugf imageURL; EvMapWrite imageURL]))
      end.
Proof.
  intros Hmiss c fetched.
  pose proof (tryImageCache_world imageURL w) as Hw.
  unfold allTagsFromImage, mbind, M_bind.
  destruct (tryImageCache imageURL w) as [[tags0 ok] w1].
  simpl in Hmiss, Hw. subst ok w1.
  set (w1 := mkWorld (vg w) (clock w)
               (events w ++ [EvRLock; EvMapRead imageURL; EvRUnlock])).
  destruct (clientFromImage_world imageURL w1) as (Hvg & Hclk & tr & Hev & Htr).
  assert (Hc : fst (clientFromImage imageURL w1) = c).
  { unfold c. apply clientFromImage_fst. reflexivity. }
  destruct (clientFromImage imageURL w1) as [c' w2].
  simpl in Hvg, Hclk, Hev, Hc. subst c'.
  exists tr. split; [exact Htr|].
  destruct w2 as [v2 k2 e2]. simpl in Hvg, Hclk, Hev. subst v2 k2 e2.
  unfold call_Tags, record. cbn [vg clock events].
  fold fetched. destruct fetched as [tags1 err1]. cbn [fst snd].
  destruct err1 as [e|].
  - unfold mret, M_ret. rewrite <- !app_assoc. reflexivity.
  - destruct (length tags1 =? 0)%nat.
    + unfold mret, M_ret. rewrite <- !app_assoc. reflexivity.
    + run. rewrite <- !app_assoc. reflexivity.
Qed.

Lemma existsb_is_map_write_IsClient tr :
  forallb (fun e => match e with EvIsClient _ _ => true | _ => false end) tr
  = true ->
  existsb is_map_write tr = false.
Proof.
  induction tr as [|e tr IH]; [reflexivity|].
  simpl. intros H. apply andb_prop in H as [He Htr].
  destruct e; try discriminate. simpl. apply IH. exact Htr.
Qed.

(** C4.  On a miss, a fetch that fails or brings no tag makes
    [allTagsFromImage] return an error; whenever it returns an error the
    getter, with its cache, is as before and the backing map has not been
    written; and the backing map is written only on a miss whose fetch
    succeeded with at least one tag, which are then the tags returned. *)
Theorem allTagsFromImage_stores_only_fetched (ctx : context.Context)
    (imageURL : string) (w : World) :
  let r := allTagsFromImage ctx imageURL w in
  let fetched :=
    Tags (client_of (vg w) (fst (clientFromImage imageURL w))) ctx imageURL in
  (snd (fst (tryImageCache imageURL w)) = false ->
   is_Some (snd fetched) \/ fst fetched = [] ->
   is_Some (snd (fst r)))
  /\
  (is_Some (snd (fst r)) ->
   vg (snd r) = vg w /\ existsb is_map_write (new_events w (snd r)) = false)
  /\
  (existsb is_map_write (new_events w (snd r)) = true ->
   snd (fst (tryImageCache imageURL w)) = false /\
   snd fetched = None /\ fst fetched <> [] /\
   fst r = (fst fetched, None)).
Proof.
  intros r fetched. unfold new_events.
  destruct (fst (tryImageCache imageURL w)) as [cached ok] eqn:Etry.
  destruct ok.
  - pose proof (allTagsFromImage_hit_eq ctx imageURL w cached Etry) as Hrun.
    fold r in Hrun. rewrite Hrun. cbn [fst snd vg events].
    rewrite drop_app_length. simpl.
    split; [discriminate|].
    split; [intros [? ?]; discriminate|discriminate].
  - assert (Hmiss : snd (fst (tryImageCache imageURL w)) = false)
      by (rewrite Etry; reflexivity).
    destruct (allTagsFromImage_miss ctx imageURL w Hmiss) as (tr & Htr & Hrun).
    cbv zeta in Hrun. fold fetched in Hrun. fold r in Hrun.
    apply existsb_is_map_write_IsClient in Htr.
    simpl. destruct fetched as [tags1 [e|]]; cbn [fst snd] in *.
    + rewrite Hrun. cbn [fst snd vg events].
      rewrite drop_app_length, !existsb_app, Htr. simpl.
      split; [intros _ _; eexists; reflexivity|].
      split; [intros _; split; reflexivity|discriminate].
    + destruct tags1 as [|t tags1]; cbn [length Nat.eqb] in Hrun.
      * rewrite Hrun. cbn [fst snd vg events].
        rewrite drop_app_length, !existsb_app, Htr. simpl.
        split; [intros _ _; eexists; reflexivity|].
        split; [intros _; split; reflexivity|discriminate].
      * rewrite Hrun. cbn [fst snd vg events].
        split; [intros _ [[? ?]|?]; discriminate|].
        split; [intros [? ?]; discriminate|].
        intros _. repeat split; [discriminate].
Qed.

Lemma allTagsFromImage_stores_only_fetched_witness :
  (is_Some (snd (fst (allTagsFromImage context.Background "docker.io/down"
                        Sample.cold))) /\
   vg (snd (allTagsFromImage context.Background "docker.io/down" Sample.cold))
   = vg Sample.cold) /\
  fst (allTagsFromImage context.Background "docker.io/nginx" Sample.cold)
  = (Sample.mixed, None).
Proof.
  split.
  - destruct (allTagsFromImage_stores_only_fetched context.Background
                "docker.io/down" Sample.cold) as (Herr & Hkeep & _).
    cbv zeta in Herr, Hkeep.
    assert (Hsome : is_Some (snd (fst (allTagsFromImage context.Background
                                         "docker.io/down" Sample.cold)))).
    { apply Herr; [vm_compute; reflexivity|].
      left. vm_compute. eexists. reflexivity. }
    split; [exact Hsome|]. apply Hkeep. exact Hsome.
  - destruct (allTagsFromImage_stores_only_fetched context.Background
                "docker.io/nginx" Sample.cold) as (_ & _ & Hstore).
    cbv zeta in Hstore.
    destruct Hstore as (_ & _ & _ & Hres); [vm_compute; reflexivity|].
    rewrite Hres. vm_compute. reflexivity.
Defined.

(** ** The lock around the backing map *)

Lemma writes_locked_IsClient held tr rest :
  forallb (fun e => match e with EvIsClient _ _ => true | _ => false end) tr
  = true ->
  writes_locked held (tr ++ rest) = writes_locked held rest.
Proof.
  induction tr as [|e tr IH]; [reflexivity|].
  simpl. intros H. apply andb_prop in H as [He Htr].
  destruct e; try discriminate. simpl. apply IH. exact Htr.
Qed.

(** Whenever [allTagsFromImage] writes the backing map, it does so without
    the writer form of the lock. *)
Lemma allTagsFromImage_writes_unlocked ctx imageURL w :
  existsb is_map_write
    (new_events w (snd (allTagsFromImage ctx imageURL w))) = true ->
  writes_locked false
    (new_events w (snd (allTagsFromImage ctx imageURL w))) = false.
Proof.
  unfold new_events.
  destruct (fst (tryImageCache imageURL w)) as [cached ok] eqn:Etry.
  destruct ok.
  - rewrite (allTagsFromImage_hit_eq ctx imageURL w cached Etry).
    cbn [snd events]. rewrite drop_app_length. discriminate.
  - assert (Hmiss : snd (fst (tryImageCache imageURL w)) = false)
      by (rewrite Etry; reflexivity).
    destruct (allTagsFromImage_miss ctx imageURL w Hmiss) as (tr & Htr & Hrun).
    cbv zeta in Hrun. rewrite Hrun. clear Hrun.
    pose proof (existsb_is_map_write_IsClient tr Htr) as Hnw.
    destruct (Tags (client_of (vg w) (fst (clientFromImage imageURL w)))
                ctx imageURL) as [tags1 [e|]]; cbn [fst snd events].
    + rewrite drop_app_length, !existsb_app, Hnw. discriminate.
    + destruct tags1 as [|t tags1]; cbn [length Nat.eqb snd events].
      * rewrite drop_app_length, !existsb_app, Hnw. discriminate.
      * intros _. rewrite <- !app_assoc, drop_app_length.
        cbn [app writes_locked].
        rewrite (writes_locked_IsClient false tr _ Htr). reflexivity.
Qed.

(** C3, on the code: a first resolution of an image writes the backing
    map, and the writer form of the lock is not held at that write; the
    lock is taken, in its reader form, for the lookup alone. *)
Theorem allTagsFromImage_store_without_lock :
  new_events Sample.cold
    (snd (allTagsFromImage context.Background "docker.io/nginx" Sample.cold))
  = [EvRLock; EvMapRead "docker.io/nginx"; EvRUnlock;
     EvIsClient Quay "docker.io/nginx"; EvIsClient Gcr "docker.io/nginx";
     EvIsClient Docker "docker.io/nginx"; EvTags Docker "docker.io/nginx";
     EvDebugf "docker.io/nginx"; EvMapWrite "docker.io/nginx"]
  /\
  writes_locked false
    (new_events Sample.cold
       (snd (allTagsFromImage context.Background "docker.io/nginx"
               Sample.cold)))
  = false.
Proof. split; vm_compute; reflexivity. Qed.

(** ** [LatestTagFromImage] *)

(** C6.  With [UseSHA] set, [LatestTagFromImage] gives the same result
    and leaves the same getter whatever the other option fields are. *)
Theorem LatestTagFromImage_sha_ignores_semver_fields (ctx : context.Context)
    (opts1 opts2 : Options) (imageURL : string) (w : World) :
  UseSHA opts1 = true -> UseSHA opts2 = true ->
  LatestTagFromImage ctx opts1 imageURL w
  = LatestTagFromImage ctx opts2 imageURL w.
Proof.
  intros H1 H2. unfold LatestTagFromImage, mbind, M_bind.
  destruct (allTagsFromImage ctx imageURL w) as [[tags err] w'].
  destruct err as [e|]; [reflexivity|].
  rewrite H1, H2. reflexivity.
Qed.

Lemma LatestTagFromImage_sha_ignores_semver_fields_witness :
  LatestTagFromImage context.Background Sample.sha_only
    "docker.io/nginx" Sample.cold
  = LatestTagFromImage context.Background Sample.sha_and_pins
      "docker.io/nginx" Sample.cold.
Proof.
  apply (LatestTagFromImage_sha_ignores_semver_fields context.Background
           Sample.sha_only Sample.sha_and_pins "docker.io/nginx" Sample.cold);
    reflexivity.
Defined.

Lemma latestSemver_loop_xor opts rest :
  forall i p lv,
    is_Some (fst (latestSemver_loop opts i rest p lv)) <->
    snd (latestSemver_loop opts i rest p lv) = None.
Proof.
  induction rest as [|t rest IH]; intros i p lv; cbn [latestSemver_loop].
  - destruct p as [a|]; simpl; split; intros H;
      try reflexivity; try discriminate.
    + eexists. reflexivity.
    + destruct H. discriminate.
  - destruct (semver.NewVersion (Tag t)) as [v|[|e]].
    + rewrite filters_chain.
      destruct (passes_filters opts t v);
        [destruct (match lv with
                   | Some l => semver.LessThan l v
                   | None => true
                   end)|];
        apply IH.
    + apply IH.
    + simpl. split; [intros [? ?]; discriminate|discriminate].
Qed.

Lemma latestSHA_loop_xor rest :
  forall i p,
    is_Some (fst (latestSHA_loop i rest p)) <->
    snd (latestSHA_loop i rest p) = None.
Proof.
  induction rest as [|t rest IH]; intros i p; cbn [latestSHA_loop].
  - destruct p as [a|]; simpl; split; intros H;
      try reflexivity; try discriminate.
    + eexists. reflexivity.
    + destruct H. discriminate.
  - destruct (match p with
              | Some (_, l) => time.After (Timestamp t) (Timestamp l)
              | None => true
              end); apply IH.
Qed.

(** C10.  [LatestTagFromImage] returns a tag exactly when it returns no
    error: never both, never neither. *)
Theorem LatestTagFromImage_tag_xor_error (ctx : context.Context)
    (opts : Options) (imageURL : string) (w : World) :
  is_Some (fst (fst (LatestTagFromImage ctx opts imageURL w))) <->
  snd (fst (LatestTagFromImage ctx opts imageURL w)) = None.
Proof.
  unfold LatestTagFromImage, mbind, M_bind.
  destruct (allTagsFromImage ctx imageURL w) as [[tags err] w'].
  destruct err as [e|].
  - simpl. split; [intros [? ?]; discriminate|discriminate].
  - destruct (UseSHA opts); unfold mret, M_ret; cbn [fst].
    + apply latestSHA_loop_xor.
    + apply latestSemver_loop_xor.
Qed.

(** ** The option fingerprint *)

Lemma fnv1_32_snoc data c :
  fnv1_32 (data ++ [c]) = fnv.step (fnv1_32 data) c.
Proof. unfold fnv1_32. rewrite rev_unit. reflexivity. Qed.

(** The state after [Write] on a fresh hash is the FNV-1 hash of the
    bytes written. *)
Lemma Write_fnv1_32 data :
  fst (fnv.Write fnv.New32 data) = fnv1_32 data.
Proof.
  unfold fnv.Write, fnv.New32. cbn [fst].
  induction data as [|c data IH] using rev_ind; [reflexivity|].
  rewrite fold_left_app, IH, fnv1_32_snoc. reflexivity.
Qed.

Lemma lxor_below a b n :
  0 <= n -> 0 <= a < 2 ^ n -> 0 <= b < 2 ^ n -> 0 <= Z.lxor a b < 2 ^ n.
Proof.
  intros Hn Ha Hb.
  assert (Hnn : 0 <= Z.lxor a b) by (apply Z.lxor_nonneg; lia).
  split; [exact Hnn|].
  assert (Hpos : 0 < 2 ^ n) by (apply Z.pow_pos_nonneg; lia).
  destruct (Z.eq_dec (Z.lxor a b) 0) as [->|Hx]; [lia|].
  assert (Hn' : 0 < n).
  { destruct (Z.eq_dec n 0) as [->|]; [|lia].
    change (2 ^ 0) with 1 in *.
    assert (a = 0) by lia. assert (b = 0) by lia. subst.
    exfalso. apply Hx. reflexivity. }
  apply Z.log2_lt_pow2; [lia|].
  eapply Z.le_lt_trans; [apply Z.log2_lxor; lia|].
  apply Z.max_lub_lt.
  - destruct (Z.eq_dec a 0) as [->|]; [simpl; lia|].
    apply Z.log2_lt_pow2; lia.
  - destruct (Z.eq_dec b 0) as [->|]; [simpl; lia|].
    apply Z.log2_lt_pow2; lia.
Qed.

Lemma byte_val_range c : 0 <= fnv.byte_val c < 2 ^ 32.
Proof.
  unfold fnv.byte_val. pose proof (N_ascii_bounded c) as H.
  change (2 ^ 32) with 4294967296. lia.
Qed.

(** The hash is a [uint32]. *)
Lemma fnv1_32_range data : 0 <= fnv1_32 data < 2 ^ 32.
Proof.
  induction data as [|c data IH] using rev_ind.
  - unfold fnv1_32. simpl. lia.
  - rewrite fnv1_32_snoc. unfold fnv.step.
    apply lxor_below; [lia| |apply byte_val_range].
    apply Z.mod_pos_bound. lia.
Qed.

Lemma CalculateHashIndex_run json_Marshal imageURL opts :
  CalculateHashIndex json_Marshal imageURL opts
  = match json_Marshal opts with
    | (opsJson, None) =>
        (Sprintf_d (fnv1_32 (opsJson ++ bytes_of imageURL)), None)
    | (_, Some e) => (EmptyString, Some (ErrMarshalOptions e))
    end.
Proof.
  unfold CalculateHashIndex.
  destruct (json_Marshal opts) as [opsJson [e|]]; [reflexivity|].
  pose proof (Write_fnv1_32 (opsJson ++ bytes_of imageURL)) as Hw.
  unfold fnv.Write in *. cbn [fst] in Hw. rewrite Hw. reflexivity.
Qed.

(** The struct in memory and the struct read through its pointers give
    the same fingerprint, the serializer being the one of the memory. *)
Lemma CalculateHashIndex_at_load enc m imageURL o :
  CalculateHashIndex_at enc m imageURL o
  = CalculateHashIndex (fun _ => json.Marshal enc m o) imageURL (load m o).
Proof. reflexivity. Qed.

Lemma pointer_member_same {A} f (at1 at2 : loc -> A) p1 p2 encode :
  same_pointee at1 at2 p1 p2 ->
  json.pointer_member f p1 at1 encode = json.pointer_member f p2 at2 encode.
Proof.
  destruct p1 as [a1|], p2 as [a2|]; simpl; try contradiction.
  - intros ->. reflexivity.
  - reflexivity.
Qed.

(** The serializer reads the pointers through: structurally equal
    structs have the same members, and so the same serialization. *)
Lemma Marshal_same enc m1 o1 m2 o2 :
  structurally_equal_at m1 o1 m2 o2 ->
  json.Marshal enc m1 o1 = json.Marshal enc m2 o2.
Proof.
  intros (H1 & H2 & H3 & H4 & H5 & H6).
  assert (Hmember : forall f, json.member enc m1 o1 f = json.member enc m2 o2 f).
  { intros f. unfold json.member.
    destruct (json.id f); rewrite ?H1, ?H2; try reflexivity;
      apply pointer_member_same; assumption. }
  unfold json.Marshal.
  assert (Hms : omap (json.member enc m1 o1) (json.fields enc)
                = omap (json.member enc m2 o2) (json.fields enc)).
  { induction (json.fields enc) as [|f l IH]; [reflexivity|].
    cbn [omap list_omap]. rewrite Hmember, IH. reflexivity. }
  rewrite Hms. reflexivity.
Qed.

Lemma digits_from_of_uint_acc d :
  forall acc,
    strconv.digits_from (Z.pos acc) (NilEmpty.string_of_uint d)
    = Some (Z.pos (Pos.of_uint_acc d acc)).
Proof.
  induction d; intros acc; cbn [NilEmpty.string_of_uint Pos.of_uint_acc];
    [reflexivity|..];
    cbn [strconv.digits_from];
    match goal with
    | |- context [strconv.is_digit ?c] =>
        change (strconv.is_digit c) with true; cbv iota;
        let v := eval vm_compute in (strconv.digit_val c) in
        change (strconv.digit_val c) with v
    end;
    match goal with
    | |- strconv.digits_from ?x _ = Some (Z.pos (Pos.of_uint_acc _ ?a)) =>
        replace x with (Z.pos a) by lia
    end;
    apply IHd.
Qed.

Lemma digits_from_of_uint d :
  strconv.digits_from 0 (NilEmpty.string_of_uint d)
  = Some (Z.of_N (Pos.of_uint d)).
Proof.
  induction d; cbn [NilEmpty.string_of_uint Pos.of_uint];
    [reflexivity|..];
    cbn [strconv.digits_from];
    match goal with
    | |- context [strconv.is_digit ?c] =>
        change (strconv.is_digit c) with true; cbv iota;
        let v := eval vm_compute in (strconv.digit_val c) in
        change (strconv.digit_val c) with v
    end;
    change (0 * 10 + 0) with 0; try exact IHd;
    match goal with
    | |- strconv.digits_from ?x _ = _ =>
        let v := eval vm_compute in x in change x with v
    end;
    rewrite digits_from_of_uint_acc; reflexivity.
Qed.

Lemma to_uint_canonical n :
  N.to_uint n <> Decimal.Nil /\
  forall d, N.to_uint n = Decimal.D0 d -> d = Decimal.Nil.
Proof.
  assert (Hnorm : N.to_uint n = Decimal.unorm (N.to_uint n)).
  { rewrite <- (DecimalPos.Unsigned.to_of (N.to_uint n)).
    change (Pos.of_uint (N.to_uint n)) with (N.of_uint (N.to_uint n)).
    rewrite DecimalN.Unsigned.of_to. reflexivity. }
  split.
  - rewrite Hnorm. apply DecimalFacts.unorm_nonnil.
  - intros d Hd. rewrite Hnorm in Hd. unfold Decimal.unorm in Hd.
    destruct (Decimal.nzhead (N.to_uint n)) eqn:Ez;
      try discriminate Hd.
    + injection Hd as <-. reflexivity.
    + exfalso. exact (DecimalFacts.nzhead_nonzero _ _ Ez).
Qed.

(** [%d] writes the decimal rendering. *)
Lemma Sprintf_d_rendering n : 0 <= n -> decimal_rendering (Sprintf_d n) n.
Proof.
  intros Hn. unfold decimal_rendering, Sprintf_d.
  destruct (to_uint_canonical (Z.to_N n)) as [Hnil Hzero].
  repeat split.
  - destruct (N.to_uint (Z.to_N n)); try discriminate. congruence.
  - rewrite digits_from_of_uint.
    change (Pos.of_uint (N.to_uint (Z.to_N n)))
      with (N.of_uint (N.to_uint (Z.to_N n))).
    rewrite DecimalN.Unsigned.of_to. f_equal. lia.
  - intros s' Hs.
    destruct (N.to_uint (Z.to_N n)) as [|d|d|d|d|d|d|d|d|d|d] eqn:Eu;
      try discriminate Hs.
    cbn [NilEmpty.string_of_uint] in Hs. injection Hs as <-.
    rewrite (Hzero d eq_refl). reflexivity.
Qed.

Lemma CalculateHashIndex_at_run enc m imageURL o :
  CalculateHashIndex_at enc m imageURL o
  = match json.Marshal enc m o with
    | (opsJson, None) =>
        (Sprintf_d (fnv1_32 (opsJson ++ bytes_of imageURL)), None)
    | (_, Some e) => (EmptyString, Some (ErrMarshalOptions e))
    end.
Proof.
  rewrite CalculateHashIndex_at_load. apply CalculateHashIndex_run.
Qed.

(** C8.  [CalculateHashIndex] depends on the URL and on the values of the
    options, not on where they are in memory: for two option structs that
    are structurally equal, the same flags and every pointer field [nil] in
    both or pointing to equal values at any two addresses, it returns the
    same string and the same error.  When the options serialize, there is
    no error and the string is the decimal rendering (digits, most
    significant first, no leading zero) of the FNV-1 hash of 32 bits, a
    number below [2^32], of the serialized options followed by the bytes
    of the URL. *)
Theorem CalculateHashIndex_deterministic (enc : json.Encoding)
    (imageURL : string) (m1 m2 : Memory) (opts1 opts2 : OptionsStruct) :
  structurally_equal_at m1 opts1 m2 opts2 ->
  CalculateHashIndex_at enc m1 imageURL opts1
  = CalculateHashIndex_at enc m2 imageURL opts2
  /\
  (forall opsJson,
     json.Marshal enc m1 opts1 = (opsJson, None) ->
     exists s,
       CalculateHashIndex_at enc m1 imageURL opts1 = (s, None) /\
       decimal_rendering s (fnv1_32 (opsJson ++ bytes_of imageURL)) /\
       0 <= fnv1_32 (opsJson ++ bytes_of imageURL) < 2 ^ 32).
Proof.
  intros Heq. split.
  - rewrite !CalculateHashIndex_at_run, (Marshal_same enc _ _ _ _ Heq).
    reflexivity.
  - intros opsJson Hjson.
    pose proof (fnv1_32_range (opsJson ++ bytes_of imageURL)) as Hrange.
    exists (Sprintf_d (fnv1_32 (opsJson ++ bytes_of imageURL))).
    split; [rewrite CalculateHashIndex_at_run, Hjson; reflexivity|].
    split; [apply Sprintf_d_rendering; lia|exact Hrange].
Qed.

Lemma CalculateHashIndex_deterministic_witness :
  Sample.struct1 <> Sample.struct2 /\
  CalculateHashIndex_at Sample.encoding Sample.memory1 "docker.io/nginx"
    Sample.struct1
  = CalculateHashIndex_at Sample.encoding Sample.memory2 "docker.io/nginx"
      Sample.struct2
  /\
  exists s,
    CalculateHashIndex_at Sample.encoding Sample.memory1 "docker.io/nginx"
      Sample.struct1 = (s, None) /\
    strconv.digits_from 0 s
    = Some (fnv1_32 (fst (json.Marshal Sample.encoding Sample.memory1
                            Sample.struct1)
                     ++ bytes_of "docker.io/nginx")).
Proof.
  split; [discriminate|].
  destruct (CalculateHashIndex_deterministic Sample.encoding "docker.io/nginx"
              Sample.memory1 Sample.memory2 Sample.struct1 Sample.struct2)
    as [Hsame Hval].
  - repeat split.
  - split; [exact Hsame|].
    destruct (Hval (fst (json.Marshal Sample.encoding Sample.memory1
                           Sample.struct1)))
      as (s & Hs & (_ & Hdigits & _) & _); [vm_compute; reflexivity|].
    exists s. split; [exact Hs|exact Hdigits].
Defined.

Example Marshal_of_struct1 :
  string_of_list_ascii
    (fst (json.Marshal Sample.encoding Sample.memory1 Sample.struct1))
  = String.concat EmptyString
      ["{"; String Sample.quote "use-sha"; String Sample.quote ":true,";
       String Sample.quote "use-prerelease"; String Sample.quote ":true,";
       String Sample.quote "pin-major"; String Sample.quote ":1,";
       String Sample.quote "pin-minor"; String Sample.quote ":2,";
       String Sample.quote "pin-patch"; String Sample.quote ":null}"]%string.
Proof. vm_compute. reflexivity. Qed.

(** ** Values on the examples of the specification *)

Example fnv1_32_of_a : fnv1_32 (bytes_of "a") = 84696446.
Proof. reflexivity. Qed.

Example semver_default_options :
  view (latestSemver Sample.defaults Sample.mixed)
  = (Some (Sample.tag "1.3.0" 20), None).
Proof. vm_compute. reflexivity. Qed.

Example semver_pin_major :
  view (latestSemver (mkOptions false false (Some 1) None None None)
          [Sample.tag "1.2.3" 1; Sample.tag "1.2.9" 2; Sample.tag "2.0.0" 3])
  = (Some (Sample.tag "1.2.9" 2), None).
Proof. vm_compute. reflexivity. Qed.

Example sha_latest_timestamp :
  view (latestSHA Sample.mixed) = (Some (Sample.tag "abc" 40), None).
Proof. vm_compute. reflexivity. Qed.

(** [LessThan] is not asymmetric on pre-release parts that are equal as
    numbers and differ as text. *)
Example LessThan_both_ways :
  exists a b,
    semver.NewVersion "1.0.0-1" = inl a /\
    semver.NewVersion "1.0.0-01" = inl b /\
    semver.LessThan a b = true /\ semver.LessThan b a = true.
Proof. do 2 eexists. repeat split; vm_compute; reflexivity. Qed.

(** Of two surviving tags that [LessThan] puts below each other, the
    loop keeps the later one. *)
Example latestSemver_last_of_two :
  view (latestSemver Sample.with_prerelease
          [Sample.tag "1.0.0-1" 1; Sample.tag "1.0.0-01" 2])
  = (Some (Sample.tag "1.0.0-01" 2), None).
Proof. vm_compute. reflexivity. Qed.

(* ===================================================================== *)
(** * Further properties of the code *)
(* ===================================================================== *)

(** ** The cache across a call of [allTagsFromImage] *)

(** What a hit of the lookup says about the backing map. *)
Lemma tryImageCache_fst imageURL w :
  fst (tryImageCache imageURL w)
  = match imageCache (vg w) !! imageURL with
    | Some it =>
        if time.Sub (clock w) (timestamp it) <? cacheTimeout (vg w)
        then (tags it, true) else ([], false)
    | None => ([], false)
    end.
Proof.
  run. destruct (imageCache (vg w) !! imageURL) as [it|]; [|reflexivity].
  destruct (time.Sub (clock w) (timestamp it) <? cacheTimeout (vg w));
    reflexivity.
Qed.

(** A call either leaves the getter as it was, or has fetched at least
    one tag and put the tags under the URL, stamped with the time of the
    call. *)
Lemma allTagsFromImage_vg ctx imageURL w :
  let r := allTagsFromImage ctx imageURL w in
  clock (snd r) = clock w /\
  (vg (snd r) = vg w \/
   exists fetched,
     fetched <> [] /\
     snd (fst (tryImageCache imageURL w)) = false /\
     Tags (client_of (vg w) (fst (clientFromImage imageURL w))) ctx imageURL
     = (fetched, None) /\
     fst r = (fetched, None) /\
     vg (snd r)
     = set_imageCache
         (<[imageURL := mkImageCacheItem (clock w) fetched]>
            (imageCache (vg w))) (vg w)).
Proof.
  intros r. subst r.
  destruct (fst (tryImageCache imageURL w)) as [cached ok] eqn:Etry.
  destruct ok.
  - rewrite (allTagsFromImage_hit_eq ctx imageURL w cached Etry).
    split; [reflexivity|left; reflexivity].
  - assert (Hmiss : snd (fst (tryImageCache imageURL w)) = false)
      by (rewrite Etry; reflexivity).
    destruct (allTagsFromImage_miss ctx imageURL w Hmiss) as (tr & Htr & Hrun).
    cbv zeta in Hrun. rewrite Hrun. clear Hrun.
    destruct (Tags (client_of (vg w) (fst (clientFromImage imageURL w)))
                ctx imageURL) as [tags1 [e|]]; cbn [fst snd].
    + split; [reflexivity|left; reflexivity].
    + destruct tags1 as [|t tags1]; cbn [length Nat.eqb].
      * split; [reflexivity|left; reflexivity].
      * split; [reflexivity|]. right. exists (t :: tags1).
        repeat split; discriminate.
Qed.

(** X1.  On a miss whose fetch succeeds with at least one tag,
    [allTagsFromImage] returns the fetched tags and the backing map is the
    old one with the URL bound to these tags, stamped with the time of the
    call; a lookup of the URL in the map finds exactly this entry. *)
Theorem allTagsFromImage_store (ctx : context.Context) (imageURL : string)
    (w : World) (fetched : list ImageTag) :
  snd (fst (tryImageCache imageURL w)) = false ->
  Tags (client_of (vg w) (fst (clientFromImage imageURL w))) ctx imageURL
  = (fetched, None) ->
  fetched <> [] ->
  let r := allTagsFromImage ctx imageURL w in
  fst r = (fetched, None) /\
  imageCache (vg (snd r))
  = <[imageURL := mkImageCacheItem (clock w) fetched]> (imageCache (vg w)) /\
  imageCache (vg (snd r)) !! imageURL
  = Some (mkImageCacheItem (clock w) fetched).
Proof.
  intros Hmiss Hfetch Hne r. subst r.
  destruct (allTagsFromImage_miss ctx imageURL w Hmiss) as (tr & _ & Hrun).
  cbv zeta in Hrun. rewrite Hfetch in Hrun. cbn [fst snd] in Hrun.
  destruct fetched as [|t fetched]; [congruence|].
  cbn [length Nat.eqb] in Hrun. rewrite Hrun. cbn [fst snd vg imageCache].
  unfold set_imageCache. cbn [imageCache].
  repeat split. apply lookup_insert_eq.
Qed.

Lemma allTagsFromImage_store_witness :
  fst (allTagsFromImage context.Background "docker.io/nginx" Sample.cold)
  = (Sample.mixed, None) /\
  imageCache (vg (snd (allTagsFromImage context.Background "docker.io/nginx"
                         Sample.cold))) !! "docker.io/nginx"%string
  = Some (mkImageCacheItem 100 Sample.mixed).
Proof.
  destruct (allTagsFromImage_store context.Background "docker.io/nginx"
              Sample.cold Sample.mixed) as (Hres & _ & Hlook).
  - vm_compute. reflexivity.
  - vm_compute. reflexivity.
  - discriminate.
  - split; [exact Hres|exact Hlook].
Defined.

(** X2.  Whatever its outcome, a call of [allTagsFromImage] keeps the
    three clients and the timeout of the getter, keeps the entry of every
    URL other than its own, and removes no entry. *)
Theorem allTagsFromImage_frame (ctx : context.Context) (imageURL : string)
    (w : World) :
  let v' := vg (snd (allTagsFromImage ctx imageURL w)) in
  quay v' = quay (vg w) /\ docker v' = docker (vg w) /\ gcr v' = gcr (vg w) /\
  cacheTimeout v' = cacheTimeout (vg w) /\
  (forall k, k <> imageURL -> imageCache v' !! k = imageCache (vg w) !! k) /\
  (forall k, is_Some (imageCache (vg w) !! k) -> is_Some (imageCache v' !! k)).
Proof.
  intros v'. subst v'.
  destruct (allTagsFromImage_vg ctx imageURL w)
    as (_ & [Hvg|(fetched & _ & _ & _ & _ & Hvg)]); rewrite Hvg.
  - repeat split; auto.
  - unfold set_imageCache. cbn [quay docker gcr cacheTimeout imageCache].
    repeat split.
    + intros k Hk. apply lookup_insert_ne. congruence.
    + intros k Hk. destruct (decide (imageURL = k)) as [->|Hne].
      * rewrite lookup_insert_eq. eexists. reflexivity.
      * rewrite lookup_insert_ne; assumption.
Qed.

Lemma allTagsFromImage_frame_witness :
  imageCache (vg (snd (allTagsFromImage context.Background "quay.io/etcd"
                         Sample.warm))) !! "docker.io/nginx"%string
  = imageCache (vg Sample.warm) !! "docker.io/nginx"%string.
Proof.
  destruct (allTagsFromImage_frame context.Background "quay.io/etcd"
              Sample.warm) as (_ & _ & _ & _ & Hother & _).
  apply Hother. discriminate.
Defined.

Lemma clientFromImage_eq imageURL w :
  clientFromImage imageURL w
  = (dispatch (vg w) imageURL,
     mkWorld (vg w) (clock w) (events w ++ dispatch_trace (vg w) imageURL)).
Proof.
  unfold dispatch, dispatch_trace. run.
  destruct (IsClient (quay (vg w)) imageURL); cbn; [reflexivity|].
  destruct (IsClient (gcr (vg w)) imageURL); cbn;
    [rewrite <- app_assoc; reflexivity|].
  destruct (IsClient (docker (vg w)) imageURL); cbn;
    rewrite <- !app_assoc; reflexivity.
Qed.

(** X3.  On a miss, an error of the client is returned wrapped with the
    URL, and it wins over any tags the client returns with it; a fetch
    without error and without tags gives the no-tags error for the URL.
    In both cases no tag list is returned. *)
Theorem allTagsFromImage_fetch_error (ctx : context.Context)
    (imageURL : string) (w : World) :
  snd (fst (tryImageCache imageURL w)) = false ->
  let fetched :=
    Tags (client_of (vg w) (fst (clientFromImage imageURL w))) ctx imageURL in
  (forall e, snd fetched = Some e ->
     fst (allTagsFromImage ctx imageURL w)
     = ([], Some (ErrGetTags imageURL e))) /\
  (snd fetched = None -> fst fetched = [] ->
     fst (allTagsFromImage ctx imageURL w)
     = ([], Some (ErrNoTagsFound imageURL))).
Proof.
  intros Hmiss fetched.
  destruct (allTagsFromImage_miss ctx imageURL w Hmiss) as (tr & _ & Hrun).
  cbv zeta in Hrun. fold fetched in Hrun. rewrite Hrun. clear Hrun.
  split.
  - intros e He. rewrite He. reflexivity.
  - intros Hnone Hnil. rewrite Hnone, Hnil. reflexivity.
Qed.

Lemma allTagsFromImage_fetch_error_witness :
  fst (allTagsFromImage context.Background "docker.io/down" Sample.cold)
  = ([], Some (ErrGetTags "docker.io/down" (ErrRegistry "connection refused")))
  /\
  fst (allTagsFromImage context.Background "gcr.io/distroless" Sample.cold)
  = ([], Some (ErrNoTagsFound "gcr.io/distroless")).
Proof.
  split.
  - destruct (allTagsFromImage_fetch_error context.Background "docker.io/down"
                Sample.cold) as [Herr _]; [vm_compute; reflexivity|].
    apply Herr. vm_compute. reflexivity.
  - destruct (allTagsFromImage_fetch_error context.Background
                "gcr.io/distroless" Sample.cold) as [_ Hempty];
      [vm_compute; reflexivity|].
    apply Hempty; vm_compute; reflexivity.
Defined.

(** X4.  The effects of a miss, in order: the lookup; the membership
    predicates in the order quay, gcr, docker up to the first that holds;
    one [Tags] call, on the client selected; and, only when the fetch
    succeeded with at least one tag, the log line and the write of the
    backing map.  No client is called before the lookup has ended. *)
Theorem allTagsFromImage_miss_trace (ctx : context.Context)
    (imageURL : string) (w : World) :
  snd (fst (tryImageCache imageURL w)) = false ->
  let c := dispatch (vg w) imageURL in
  let fetched := Tags (client_of (vg w) c) ctx imageURL in
  new_events w (snd (allTagsFromImage ctx imageURL w))
  = [EvRLock; EvMapRead imageURL; EvRUnlock]
    ++ dispatch_trace (vg w) imageURL
    ++ [EvTags c imageURL]
    ++ (match fetched with
        | (_ :: _, None) => [EvDebugf imageURL; EvMapWrite imageURL]
        | _ => []
        end).
Proof.
  intros Hmiss c fetched.
  pose proof (tryImageCache_world imageURL w) as Hw.
  unfold new_events, allTagsFromImage, mbind, M_bind.
  destruct (tryImageCache imageURL w) as [[tags0 ok] w1].
  simpl in Hmiss, Hw. subst ok w1.
  rewrite clientFromImage_eq. cbn [vg clock events].
  fold c. unfold call_Tags, record. cbn [vg clock events].
  fold fetched. destruct fetched as [tags1 [e|]].
  - unfold mret, M_ret. cbn [snd events].
    rewrite <- !app_assoc, drop_app_length. cbn [app].
    destruct tags1; reflexivity.
  - destruct tags1 as [|t tags1]; cbn [length Nat.eqb].
    + unfold mret, M_ret. cbn [snd events].
      rewrite <- !app_assoc, drop_app_length. reflexivity.
    + run. rewrite <- !app_assoc, drop_app_length. reflexivity.
Qed.

Lemma allTagsFromImage_miss_trace_witness :
  new_events Sample.cold
    (snd (allTagsFromImage context.Background "quay.io/etcd" Sample.cold))
  = [EvRLock; EvMapRead "quay.io/etcd"; EvRUnlock;
     EvIsClient Quay "quay.io/etcd"; EvTags Quay "quay.io/etcd";
     EvDebugf "quay.io/etcd"; EvMapWrite "quay.io/etcd"].
Proof.
  rewrite (allTagsFromImage_miss_trace context.Background "quay.io/etcd"
             Sample.cold); [|vm_compute; reflexivity].
  vm_compute. reflexivity.
Defined.

Lemma tryImageCache_hit_entry imageURL w cached :
  fst (tryImageCache imageURL w) = (cached, true) ->
  exists it,
    imageCache (vg w) !! imageURL = Some it /\ tags it = cached /\
    time.Sub (clock w) (timestamp it) < cacheTimeout (vg w).
Proof.
  rewrite tryImageCache_fst.
  destruct (imageCache (vg w) !! imageURL) as [it|]; [|discriminate].
  destruct (Z.ltb_spec (time.Sub (clock w) (timestamp it))
              (cacheTimeout (vg w))); [|discriminate].
  intros [= <-]. exists it. repeat split. assumption.
Qed.

(** The tags returned without an error come from a cache entry or from a
    fetch that brought at least one tag. *)
Lemma allTagsFromImage_result ctx imageURL w :
  let r := allTagsFromImage ctx imageURL w in
  (exists it,
     imageCache (vg w) !! imageURL = Some it /\ fst r = (tags it, None)) \/
  (exists t l, fst r = (t :: l, None)) \/
  (exists e, fst r = ([], Some (ErrGetTags imageURL e))) \/
  fst r = ([], Some (ErrNoTagsFound imageURL)).
Proof.
  intros r. subst r.
  destruct (fst (tryImageCache imageURL w)) as [cached ok] eqn:Etry.
  destruct ok.
  - left. destruct (tryImageCache_hit_entry imageURL w cached Etry)
      as (it & Hit & <- & _).
    exists it. split; [exact Hit|].
    rewrite (allTagsFromImage_hit_eq ctx imageURL w (tags it) Etry).
    reflexivity.
  - right.
    assert (Hmiss : snd (fst (tryImageCache imageURL w)) = false)
      by (rewrite Etry; reflexivity).
    destruct (allTagsFromImage_miss ctx imageURL w Hmiss) as (tr & _ & Hrun).
    cbv zeta in Hrun. rewrite Hrun. clear Hrun.
    destruct (Tags (client_of (vg w) (fst (clientFromImage imageURL w)))
                ctx imageURL) as [tags1 [e|]]; cbn [fst snd].
    + right. left. exists e. reflexivity.
    + destruct tags1 as [|t l]; cbn [length Nat.eqb fst].
      * right. right. reflexivity.
      * left. exists t, l. reflexivity.
Qed.

(** X5.  If every entry of the cache holds at least one tag, then after a
    call of [allTagsFromImage] every entry still does, and the tags that
    the call returns without an error are at least one. *)
Theorem allTagsFromImage_keeps_nonempty (ctx : context.Context)
    (imageURL : string) (w : World) :
  cache_nonempty (imageCache (vg w)) ->
  let r := allTagsFromImage ctx imageURL w in
  cache_nonempty (imageCache (vg (snd r))) /\
  (snd (fst r) = None -> fst (fst r) <> []).
Proof.
  intros Hinv r. subst r. split.
  - destruct (allTagsFromImage_vg ctx imageURL w)
      as (_ & [Hvg|(fetched & Hne & _ & _ & _ & Hvg)]); rewrite Hvg;
      [exact Hinv|].
    unfold set_imageCache. cbn [imageCache]. intros k it Hk.
    destruct (decide (imageURL = k)) as [->|Hnk].
    + rewrite lookup_insert_eq in Hk. injection Hk as <-. exact Hne.
    + rewrite lookup_insert_ne in Hk by assumption. exact (Hinv k it Hk).
  - destruct (allTagsFromImage_result ctx imageURL w)
      as [(it & Hit & Hr)|[(t & l & Hr)|[(e & Hr)|Hr]]];
      cbv zeta in Hr; rewrite Hr; cbn [fst snd]; try discriminate.
    intros _. exact (Hinv imageURL it Hit).
Qed.

Lemma allTagsFromImage_keeps_nonempty_witness :
  cache_nonempty
    (imageCache (vg (snd (allTagsFromImage context.Background
                            "docker.io/nginx" Sample.cold)))).
Proof.
  apply (allTagsFromImage_keeps_nonempty context.Background "docker.io/nginx"
           Sample.cold).
  intros k it Hk. vm_compute in Hk. discriminate Hk.
Defined.

Lemma latestSHA_loop_seeded rest :
  forall i p, snd (latestSHA_loop i rest (Some p)) = None.
Proof.
  induction rest as [|t rest IH]; intros i [j l]; cbn [latestSHA_loop];
    [reflexivity|].
  destruct (time.After (Timestamp t) (Timestamp l)); apply IH.
Qed.

Lemma latestSHA_nonempty_ok tags :
  tags <> [] -> snd (latestSHA tags) = None.
Proof.
  destruct tags as [|t tags]; [congruence|]. intros _.
  unfold latestSHA. cbn [latestSHA_loop]. apply latestSHA_loop_seeded.
Qed.

(** X6.  With [UseSHA] set, on a getter whose cache entries all hold at
    least one tag, [LatestTagFromImage] fails only when
    [allTagsFromImage] does, with the same error: the error of
    [latestSHA] for an empty list is never returned. *)
Theorem LatestTagFromImage_sha_never_empty (ctx : context.Context)
    (opts : Options) (imageURL : string) (w : World) :
  cache_nonempty (imageCache (vg w)) ->
  UseSHA opts = true ->
  snd (fst (LatestTagFromImage ctx opts imageURL w))
  = snd (fst (allTagsFromImage ctx imageURL w)) /\
  snd (fst (LatestTagFromImage ctx opts imageURL w)) <> Some ErrLatestSHA.
Proof.
  intros Hinv Hsha.
  pose proof (allTagsFromImage_result ctx imageURL w) as Hres.
  cbv zeta in Hres.
  assert (Hne : snd (fst (allTagsFromImage ctx imageURL w)) = None ->
                fst (fst (allTagsFromImage ctx imageURL w)) <> []).
  { destruct Hres as [(it & Hit & Hr)|[(t & l & Hr)|[(e & Hr)|Hr]]];
      rewrite Hr; cbn [fst snd]; try discriminate.
    intros _. exact (Hinv imageURL it Hit). }
  unfold LatestTagFromImage, mbind, M_bind.
  destruct (allTagsFromImage ctx imageURL w) as [[tags1 err] w'].
  cbn [fst snd] in *. destruct err as [e|].
  - unfold mret, M_ret. cbn [fst snd]. split; [reflexivity|].
    destruct Hres as [(it & _ & Hr)|[(t & l & Hr)|[(e' & Hr)|Hr]]];
      inversion Hr; discriminate.
  - rewrite Hsha. unfold mret, M_ret. cbn [fst].
    rewrite (latestSHA_nonempty_ok tags1 (Hne eq_refl)).
    split; [reflexivity|discriminate].
Qed.

Lemma LatestTagFromImage_sha_never_empty_witness :
  snd (fst (LatestTagFromImage context.Background Sample.sha_only
              "docker.io/nginx" Sample.warm))
  <> Some ErrLatestSHA.
Proof.
  apply (LatestTagFromImage_sha_never_empty context.Background Sample.sha_only
           "docker.io/nginx" Sample.warm); [|reflexivity].
  intros k it Hk.
  destruct (decide (k = "docker.io/nginx"%string)) as [->|Hne].
  - vm_compute in Hk. injection Hk as <-. discriminate.
  - unfold Sample.warm in Hk. cbn [vg imageCache] in Hk.
    rewrite lookup_singleton_ne in Hk by congruence. discriminate Hk.
Defined.

(** After a miss whose fetch succeeded, the getter holds the new entry. *)
Lemma allTagsFromImage_store_vg ctx imageURL w fetched :
  snd (fst (tryImageCache imageURL w)) = false ->
  Tags (client_of (vg w) (fst (clientFromImage imageURL w))) ctx imageURL
  = (fetched, None) ->
  fetched <> [] ->
  vg (snd (allTagsFromImage ctx imageURL w))
  = set_imageCache
      (<[imageURL := mkImageCacheItem (clock w) fetched]> (imageCache (vg w)))
      (vg w).
Proof.
  intros Hmiss Hfetch Hne.
  destruct (allTagsFromImage_miss ctx imageURL w Hmiss) as (tr & _ & Hrun).
  cbv zeta in Hrun. rewrite Hfetch in Hrun. cbn [fst snd] in Hrun.
  destruct fetched as [|t fetched]; [congruence|].
  cbn [length Nat.eqb] in Hrun. rewrite Hrun. reflexivity.
Qed.

(** X7.  After a miss whose fetch succeeded with at least one tag, a
    second call for the same URL, made when the clock reads [now'], is
    served from the cache, with the tags of the first call and without any
    call on a client, if less than the timeout has passed since the first
    call; from the timeout on, the lookup misses again. *)
Theorem allTagsFromImage_second_call (ctx ctx' : context.Context)
    (imageURL : string) (w : World) (fetched : list ImageTag)
    (now' : time.Time) :
  snd (fst (tryImageCache imageURL w)) = false ->
  Tags (client_of (vg w) (fst (clientFromImage imageURL w))) ctx imageURL
  = (fetched, None) ->
  fetched <> [] ->
  let w1 := at_time now' (snd (allTagsFromImage ctx imageURL w)) in
  (time.Sub now' (clock w) < cacheTimeout (vg w) ->
   fst (allTagsFromImage ctx' imageURL w1) = (fetched, None) /\
   vg (snd (allTagsFromImage ctx' imageURL w1)) = vg w1 /\
   existsb is_client_call
     (new_events w1 (snd (allTagsFromImage ctx' imageURL w1))) = false)
  /\
  (cacheTimeout (vg w) <= time.Sub now' (clock w) ->
   snd (fst (tryImageCache imageURL w1)) = false).
Proof.
  intros Hmiss Hfetch Hne w1.
  pose proof (allTagsFromImage_store_vg ctx imageURL w fetched Hmiss Hfetch Hne)
    as Hvg.
  assert (Htry : fst (tryImageCache imageURL w1)
                 = if time.Sub now' (clock w) <? cacheTimeout (vg w)
                   then (fetched, true) else ([], false)).
  { rewrite tryImageCache_fst. unfold w1, at_time. cbn [vg clock].
    rewrite Hvg. unfold set_imageCache. cbn [imageCache cacheTimeout].
    rewrite lookup_insert_eq. reflexivity. }
  split.
  - intros Hfresh. apply Z.ltb_lt in Hfresh. rewrite Hfresh in Htry.
    rewrite (allTagsFromImage_hit_eq ctx' imageURL w1 fetched Htry).
    unfold new_events. cbn [fst snd vg events]. rewrite drop_app_length.
    repeat split; reflexivity.
  - intros Hstale. apply Z.ltb_ge in Hstale. rewrite Hstale in Htry.
    rewrite Htry. reflexivity.
Qed.

Lemma allTagsFromImage_second_call_witness :
  fst (allTagsFromImage (context.WithDeadline context.Background 2000)
         "docker.io/nginx"
         (at_time 1099
            (snd (allTagsFromImage context.Background "docker.io/nginx"
                    Sample.cold))))
  = (Sample.mixed, None) /\
  snd (fst (tryImageCache "docker.io/nginx"
              (at_time 1100
                 (snd (allTagsFromImage context.Background "docker.io/nginx"
                         Sample.cold)))))
  = false.
Proof.
  split.
  - destruct (allTagsFromImage_second_call context.Background
                (context.WithDeadline context.Background 2000)
                "docker.io/nginx" Sample.cold Sample.mixed 1099)
      as [Hfresh _];
      [vm_compute; reflexivity|vm_compute; reflexivity|discriminate|].
    apply Hfresh. vm_compute. reflexivity.
  - destruct (allTagsFromImage_second_call context.Background
                context.Background
                "docker.io/nginx" Sample.cold Sample.mixed 1100)
      as [_ Hstale];
      [vm_compute; reflexivity|vm_compute; reflexivity|discriminate|].
    apply Hstale. vm_compute. discriminate.
Defined.



(** ** The scan without an assumption on the comparison *)

Lemma scan_later {K} (lt : K -> K -> bool) (ks : list (option K)) :
  forall i0 best i k,
    (forall ib kb, best = Some (ib, kb) -> (ib < i0)%nat) ->
    scan lt i0 ks best = Some (i, k) ->
    ((i < i0)%nat -> best = Some (i, k)) /\
    (forall j k', ks !! j = Some (Some k') -> (i < i0 + j)%nat ->
                  lt k k' = false) /\
    ((i0 <= i)%nat -> ks !! (i - i0)%nat = Some (Some k)).
Proof.
  induction ks as [|x ks IH]; intros i0 best i k Hseed Hscan.
  - cbn [scan] in Hscan. subst best.
    pose proof (Hseed i k eq_refl) as Hlt.
    repeat split; [intros j k' Hj; rewrite lookup_nil in Hj; discriminate|lia].
  - cbn [scan] in Hscan. destruct x as [k0|].
    + set (best' := match best with
                    | Some (_, b) => if lt b k0 then Some (i0, k0) else best
                    | None => Some (i0, k0)
                    end) in Hscan.
      assert (Hseed' : forall ib kb, best' = Some (ib, kb) -> (ib < S i0)%nat).
      { intros ib kb Hb. unfold best' in Hb.
        destruct best as [[jb b]|]; [destruct (lt b k0)|].
        - injection Hb as <- _. lia.
        - specialize (Hseed ib kb Hb). lia.
        - injection Hb as <- _. lia. }
      destruct (IH (S i0) best' i k Hseed' Hscan) as (H1 & H2 & H3).
      assert (Hold : (i < i0)%nat -> best = Some (i, k) /\ lt k k0 = false).
      { intros Hi. assert (Hb : best' = Some (i, k)) by (apply H1; lia).
        unfold best' in Hb.
        destruct best as [[jb b]|]; [destruct (lt b k0) eqn:Eb|].
        - injection Hb as <- _. lia.
        - injection Hb as -> ->. split; [reflexivity|exact Eb].
        - injection Hb as <- _. lia. }
      repeat split.
      * intros Hi. apply Hold. exact Hi.
      * intros j k' Hj Hij. destruct j as [|j].
        -- cbn in Hj. injection Hj as <-. apply Hold. lia.
        -- cbn in Hj. apply (H2 j k' Hj). lia.
      * intros Hi. destruct (decide (i = i0)) as [->|Hne].
        -- rewrite Nat.sub_diag. cbn.
           assert (Hb : best' = Some (i0, k)) by (apply H1; lia).
           unfold best' in Hb.
           destruct best as [[jb b]|]; [destruct (lt b k0)|].
           ++ injection Hb as <-. reflexivity.
           ++ specialize (Hseed i0 k Hb). lia.
           ++ injection Hb as <-. reflexivity.
        -- replace (i - i0)%nat with (S (i - S i0)) by lia. cbn.
           apply H3. lia.
    + destruct (IH (S i0) best i k) as (H1 & H2 & H3);
        [intros ib kb Hb; specialize (Hseed ib kb Hb); lia|exact Hscan|].
      repeat split.
      * intros Hi. apply H1. lia.
      * intros j k' Hj Hij. destruct j as [|j]; [discriminate|].
        cbn in Hj. apply (H2 j k' Hj). lia.
      * intros Hi. destruct (decide (i = i0)) as [->|Hne].
        -- assert (Hb : best = Some (i0, k)) by (apply H1; lia).
           specialize (Hseed i0 k Hb). lia.
        -- replace (i - i0)%nat with (S (i - S i0)) by lia. cbn.
           apply H3. lia.
Qed.

Lemma scan_none {K} (lt : K -> K -> bool) (ks : list (option K)) :
  forall i0 best,
    scan lt i0 ks best = None <-> best = None /\ Forall (fun x => x = None) ks.
Proof.
  induction ks as [|x ks IH]; intros i0 best; cbn [scan].
  - split; [intros ->; split; constructor|intros [-> _]; reflexivity].
  - destruct x as [k0|].
    + rewrite IH. split.
      * intros [Hb _]. destruct best as [[jb b]|];
          [destruct (lt b k0)|]; discriminate.
      * intros [_ Hall]. inversion Hall; discriminate.
    + rewrite IH. split.
      * intros [-> Hall]. split; [reflexivity|constructor; auto].
      * intros [-> Hall]. inversion Hall; subst. split; auto.
Qed.

(** What [latestSemver] returns, read off the scan: a segment error, or
    the result of the scan over the surviving tags. *)
Lemma latestSemver_cases opts tags :
  (exists e, latestSemver opts tags
             = (None, Some (ErrSemver (semver.ErrSegment e))) /\
             no_segment_error tags = false)
  \/
  (no_segment_error tags = true /\
   latestSemver opts tags
   = semver_result opts (scan version_lt 0 (semver_entries opts tags) None)).
Proof.
  destruct (segment_error_split tags)
    as [Hno|(before & t & e & after & -> & Hb & Ht)].
  - right. split; [exact Hno|].
    pose proof (latestSemver_loop_scan opts tags 0 None Hno) as Hscan.
    cbn [fmap option_fmap option_map] in Hscan. exact Hscan.
  - left. exists e. split.
    + unfold latestSemver. apply latestSemver_loop_segment_error; assumption.
    + unfold no_segment_error. rewrite forallb_app. cbn [forallb].
      unfold segment_error at 2. rewrite Ht.
      rewrite andb_false_r. reflexivity.
Qed.

Lemma passes_filters_spec opts t v :
  passes_filters opts t v = true <->
  (forall re, RegexMatcher opts = Some re ->
              regexp.MatchString re (Tag t) = true) /\
  (semver.pre v <> EmptyString -> UsePreRelease opts = true) /\
  (forall p, PinMajor opts = Some p -> semver.major v = p) /\
  (forall p, PinMinor opts = Some p -> semver.minor v = p) /\
  (forall p, PinPatch opts = Some p -> semver.patch v = p).
Proof.
  unfold passes_filters, pin_ok.
  rewrite !andb_true_iff, orb_true_iff. split.
  - intros ((((Hre & Hpre) & H1) & H2) & H3). repeat split.
    + intros re Ere. rewrite Ere in Hre. exact Hre.
    + intros Hne. destruct Hpre as [Hpre|Hpre]; [exact Hpre|].
      apply String.eqb_eq in Hpre. contradiction.
    + intros p Ep. rewrite Ep in H1. apply Z.eqb_eq. exact H1.
    + intros p Ep. rewrite Ep in H2. apply Z.eqb_eq. exact H2.
    + intros p Ep. rewrite Ep in H3. apply Z.eqb_eq. exact H3.
  - intros (Hre & Hpre & H1 & H2 & H3). repeat split.
    + destruct (RegexMatcher opts) as [re|]; [apply Hre|]; reflexivity.
    + destruct (String.eqb_spec (semver.pre v) EmptyString) as [E|E];
        [right; reflexivity|left; apply Hpre; exact E].
    + destruct (PinMajor opts) as [p|]; [|reflexivity].
      apply Z.eqb_eq. apply H1. reflexivity.
    + destruct (PinMinor opts) as [p|]; [|reflexivity].
      apply Z.eqb_eq. apply H2. reflexivity.
    + destruct (PinPatch opts) as [p|]; [|reflexivity].
      apply Z.eqb_eq. apply H3. reflexivity.
Qed.

(** ** [latestSemver] without an assumption on [LessThan] *)

(** X9.  A tag that [latestSemver] returns comes without an error, is the
    element of the list at the index returned, parses as a version, and
    satisfies every constraint of the options: the pattern, if one is set,
    matches its text; it has a pre-release part only if [UsePreRelease] is
    set; and each pin that is set equals its segment. *)
Theorem latestSemver_winner_satisfies (opts : Options) (tags : list ImageTag)
    (i : nat) (t : ImageTag) :
  fst (latestSemver opts tags) = Some (i, t) ->
  snd (latestSemver opts tags) = None /\
  tags !! i = Some t /\
  exists v,
    semver.NewVersion (Tag t) = inl v /\
    (forall re, RegexMatcher opts = Some re ->
                regexp.MatchString re (Tag t) = true) /\
    (semver.Prerelease v <> EmptyString -> UsePreRelease opts = true) /\
    (forall p, PinMajor opts = Some p -> semver.Major v = p) /\
    (forall p, PinMinor opts = Some p -> semver.Minor v = p) /\
    (forall p, PinPatch opts = Some p -> semver.Patch v = p).
Proof.
  intros Hres.
  destruct (latestSemver_cases opts tags) as [(e & He & _)|(_ & Hscan)];
    [rewrite He in Hres; discriminate|].
  rewrite Hscan in *.
  destruct (scan version_lt 0 (semver_entries opts tags) None)
    as [[i' [t' v]]|] eqn:Es; [|discriminate].
  cbn [semver_result fst snd] in *. injection Hres as -> ->.
  destruct (scan_later version_lt (semver_entries opts tags) 0 None i (t, v))
    as (_ & _ & Hentry); [discriminate|exact Es|].
  rewrite Nat.sub_0_r in Hentry. specialize (Hentry (Nat.le_0_l i)).
  apply semver_entries_lookup in Hentry as [Hi Hs].
  split; [reflexivity|]. split; [exact Hi|].
  unfold survives in Hs.
  destruct (semver.NewVersion (Tag t)) as [v'|]; [|discriminate].
  destruct (passes_filters opts t v') eqn:Hp; [|discriminate].
  injection Hs as ->. exists v. split; [reflexivity|].
  apply passes_filters_spec. exact Hp.
Qed.

Lemma latestSemver_winner_satisfies_witness :
  exists v,
    semver.NewVersion "1.2.9" = inl v /\ semver.Major v = 1.
Proof.
  destruct (latestSemver_winner_satisfies
              (mkOptions false false (Some 1) None None None)
              [Sample.tag "1.2.3" 1; Sample.tag "1.2.9" 2;
               Sample.tag "2.0.0" 3]
              1%nat (Sample.tag "1.2.9" 2))
    as (_ & _ & v & Hv & _ & _ & Hmajor & _).
  - vm_compute. reflexivity.
  - exists v. split; [exact Hv|]. apply Hmajor. reflexivity.
Defined.

(** X10.  Whatever [LessThan] answers on other pairs, the version of the
    tag that [latestSemver] returns is not strictly below the version of
    any surviving tag that comes after it in the list. *)
Theorem latestSemver_not_below_later (opts : Options) (tags : list ImageTag)
    (i j : nat) (t t' : ImageTag) (v v' : semver.Version) :
  fst (latestSemver opts tags) = Some (i, t) ->
  survives opts t = Some v ->
  (i < j)%nat ->
  tags !! j = Some t' ->
  survives opts t' = Some v' ->
  semver.LessThan v v' = false.
Proof.
  intros Hres Hv Hij Hj Hv'.
  destruct (latestSemver_cases opts tags) as [(e & He & _)|(_ & Hscan)];
    [rewrite He in Hres; discriminate|].
  rewrite Hscan in Hres.
  destruct (scan version_lt 0 (semver_entries opts tags) None)
    as [[i' [t0 v0]]|] eqn:Es; [|discriminate].
  cbn [semver_result fst] in Hres. injection Hres as -> ->.
  destruct (scan_later version_lt (semver_entries opts tags) 0 None i (t, v0))
    as (_ & Hlater & Hentry); [discriminate|exact Es|].
  rewrite Nat.sub_0_r in Hentry. specialize (Hentry (Nat.le_0_l i)).
  apply semver_entries_lookup in Hentry as [_ Hs].
  rewrite Hv in Hs. injection Hs as <-.
  apply (Hlater j (t', v')); [|lia].
  apply semver_entries_lookup. split; assumption.
Qed.

Lemma latestSemver_not_below_later_witness :
  exists v v',
    semver.NewVersion "1.3.0" = inl v /\
    semver.NewVersion "1.3.0-beta" = inl v' /\
    semver.LessThan v v' = false.
Proof.
  destruct (semver.NewVersion "1.3.0") as [v|] eqn:Ev;
    [|vm_compute in Ev; discriminate Ev].
  destruct (semver.NewVersion "1.3.0-beta") as [v'|] eqn:Ev';
    [|vm_compute in Ev'; discriminate Ev'].
  exists v, v'. repeat split.
  apply (latestSemver_not_below_later Sample.with_prerelease Sample.mixed
           1%nat 2%nat (Sample.tag "1.3.0" 20) (Sample.tag "1.3.0-beta" 30)).
  - vm_compute. reflexivity.
  - unfold survives. cbn [Tag Sample.tag]. rewrite Ev.
    vm_compute in Ev. injection Ev as <-. vm_compute. reflexivity.
  - lia.
  - reflexivity.
  - unfold survives. cbn [Tag Sample.tag]. rewrite Ev'.
    vm_compute in Ev'. injection Ev' as <-. vm_compute. reflexivity.
Defined.

(** X11.  [latestSemver] returns the no-match error, which carries the
    options, exactly when no tag has a segment error and no tag survives
    the filters. *)
Theorem latestSemver_no_match_iff (opts : Options) (tags : list ImageTag) :
  latestSemver opts tags = (None, Some (ErrNoImageFound opts)) <->
  no_segment_error tags = true /\ survivors opts tags = [].
Proof.
  assert (Hall : Forall (fun x => x = None) (semver_entries opts tags) <->
                 survivors opts tags = []).
  { rewrite survivors_nil. unfold semver_entries. rewrite Forall_fmap.
    rewrite Forall_forall. split.
    - intros H t Ht. specialize (H t Ht). cbn in H.
      destruct (survives opts t); [discriminate|reflexivity].
    - intros H t Ht. cbn. rewrite (H t Ht). reflexivity. }
  destruct (latestSemver_cases opts tags) as [(e & He & Hno)|(Hno & Hscan)].
  - rewrite He, Hno. split; [discriminate|intros [? _]; discriminate].
  - rewrite Hscan. split.
    + intros Hres. split; [exact Hno|]. apply Hall.
      destruct (scan version_lt 0 (semver_entries opts tags) None)
        as [[i [t v]]|] eqn:Es; [discriminate|].
      apply scan_none in Es. apply Es.
    + intros [_ Hnil]. apply Hall in Hnil.
      assert (Es : scan version_lt 0 (semver_entries opts tags) None = None)
        by (apply scan_none; split; [reflexivity|exact Hnil]).
      rewrite Es. reflexivity.
Qed.

(** X12.  With [UsePreRelease] unset and no segment error, as soon as one
    tag survives the filters [latestSemver] returns a surviving tag whose
    (major, minor, patch) no surviving tag exceeds, and which every
    surviving tag before it stays strictly below: no assumption on
    [LessThan] is needed. *)
Theorem latestSemver_release_greatest (opts : Options) (tags : list ImageTag) :
  UsePreRelease opts = false ->
  no_segment_error tags = true ->
  survivors opts tags <> [] ->
  exists i t v,
    latestSemver opts tags = (Some (i, t), None) /\
    tags !! i = Some t /\
    survives opts t = Some v /\
    forall j t' v',
      tags !! j = Some t' -> survives opts t' = Some v' ->
      ~ release_lt v v' /\ ((j < i)%nat -> release_lt v' v).
Proof.
  intros Hpre Hno Hsome.
  pose proof (survivors_release_ordered opts tags Hpre) as Hswo.
  pose proof (latestSemver_loop_scan opts tags 0 None Hno) as Hscan.
  cbn [fmap option_fmap option_map] in Hscan.
  unfold latestSemver. rewrite Hscan. clear Hscan.
  rewrite <- semver_entries_survivors in Hswo.
  pose proof (scan_from_start semver.LessThan snd _ Hswo) as Hmax.
  fold version_lt in Hmax.
  destruct (scan version_lt 0 (semver_entries opts tags) None)
    as [[i [t v]]|]; simpl in *.
  - exists i, t, v. destruct Hmax as [Hi Hall].
    apply semver_entries_lookup in Hi as [Hi Hs].
    repeat split; try assumption.
    + intros Hlt.
      assert (Hentry : semver_entries opts tags !! j = Some (Some (t', v')))
        by (apply semver_entries_lookup; split; assumption).
      destruct (Hall j (t', v') Hentry) as [Hnot _].
      unfold version_lt in Hnot. cbn [snd] in Hnot.
      apply (LessThan_release v v') in Hlt;
        [congruence|eapply survives_release; eassumption..].
    + intros Hji.
      assert (Hentry : semver_entries opts tags !! j = Some (Some (t', v')))
        by (apply semver_entries_lookup; split; assumption).
      destruct (Hall j (t', v') Hentry) as [_ Hless].
      unfold version_lt in Hless. cbn [snd] in Hless.
      apply (LessThan_release v' v);
        [eapply survives_release; eassumption..|].
      apply Hless. exact Hji.
  - exfalso. apply Hsome. apply survivors_nil. intros t Ht.
    destruct (survives opts t) as [v|] eqn:E; [|reflexivity].
    apply list_elem_of_lookup in Ht as [j Hj].
    exfalso. apply (Hmax j (t, v)). apply semver_entries_lookup.
    split; assumption.
Qed.

Lemma latestSemver_release_greatest_witness :
  exists i t v,
    latestSemver Sample.defaults Sample.mixed = (Some (i, t), None) /\
    Sample.mixed !! i = Some t /\
    survives Sample.defaults t = Some v /\
    forall j t' v',
      Sample.mixed !! j = Some t' -> survives Sample.defaults t' = Some v' ->
      ~ release_lt v v' /\ ((j < i)%nat -> release_lt v' v).
Proof.
  apply (latestSemver_release_greatest Sample.defaults Sample.mixed).
  - reflexivity.
  - vm_compute. reflexivity.
  - vm_compute. discriminate.
Defined.

(** ** [latestSHA] on a list in two parts *)

Lemma first_max_unique {K} (lt : K -> K -> bool) l i k i' k' :
  first_max lt l (Some (i, k)) -> first_max lt l (Some (i', k')) ->
  i = i' /\ k = k'.
Proof.
  intros [Hi Hall] [Hi' Hall'].
  assert (Heq : i = i').
  { destruct (Nat.lt_trichotomy i i') as [Hlt|[Heq|Hgt]]; [|exact Heq|].
    - destruct (Hall' i k Hi) as [_ H1]. destruct (Hall i' k' Hi') as [H2 _].
      rewrite (H1 Hlt) in H2. discriminate.
    - destruct (Hall i' k' Hi') as [_ H1]. destruct (Hall' i k Hi) as [H2 _].
      rewrite (H1 Hgt) in H2. discriminate. }
  subst i'. split; [reflexivity|]. congruence.
Qed.

Lemma latest_at_first_max l i t :
  latest_at l i t <-> first_max timestamp_lt (Some <$> l) (Some (i, t)).
Proof.
  unfold latest_at. cbn [first_max]. rewrite list_lookup_fmap. split.
  - intros [Hi Hall]. rewrite Hi. split; [reflexivity|].
    intros j t' Hj. rewrite list_lookup_fmap in Hj.
    destruct (l !! j) as [tj|] eqn:Ej; [|discriminate].
    cbn in Hj. injection Hj as ->.
    destruct (Hall j t' Ej) as [H1 H2].
    split; [apply timestamp_lt_false; exact H1|].
    intros Hji. apply timestamp_lt_iff. apply H2. exact Hji.
  - intros [Hi Hall]. destruct (l !! i) as [ti|]; [|discriminate].
    cbn in Hi. injection Hi as ->. split; [reflexivity|].
    intros j t' Hj.
    assert (Hj' : (Some <$> l) !! j = Some (Some t'))
      by (rewrite list_lookup_fmap, Hj; reflexivity).
    destruct (Hall j t' Hj') as [H1 H2].
    split; [apply timestamp_lt_false; exact H1|].
    intros Hji. apply timestamp_lt_iff. apply H2. exact Hji.
Qed.

(** [latestSHA] returns a tag exactly when that tag is the first with
    the latest [Timestamp]. *)
Lemma latestSHA_latest_at l i t :
  latestSHA l = (Some (i, t), None) <-> latest_at l i t.
Proof.
  unfold latestSHA. rewrite latestSHA_loop_scan, latest_at_first_max.
  pose proof (scan_timestamps l) as Hmax.
  destruct (scan timestamp_lt 0 (Some <$> l) None) as [[i' t']|] eqn:Es;
    cbn [sha_result].
  - split.
    + intros [= -> ->]. exact Hmax.
    + intros Hc. destruct (first_max_unique _ _ _ _ _ _ Hmax Hc) as [-> ->].
      reflexivity.
  - split; [discriminate|]. intros [Hi _]. exfalso.
    exact (Hmax i t Hi).
Qed.

(** X13.  The selection of [latestSHA] on a list in two parts is the
    selection on the second part, moved by the length of the first, if
    its [Timestamp] is strictly after that of the selection on the first
    part, and the selection on the first part otherwise. *)
Theorem latestSHA_app (l1 l2 : list ImageTag) (i1 i2 : nat)
    (t1 t2 : ImageTag) :
  latestSHA l1 = (Some (i1, t1), None) ->
  latestSHA l2 = (Some (i2, t2), None) ->
  latestSHA (l1 ++ l2)
  = if time.After (Timestamp t2) (Timestamp t1)
    then (Some ((length l1 + i2)%nat, t2), None)
    else (Some (i1, t1), None).
Proof.
  intros H1 H2.
  apply latestSHA_latest_at in H1 as [Hi1 Hall1].
  apply latestSHA_latest_at in H2 as [Hi2 Hall2].
  pose proof (lookup_lt_Some _ _ _ Hi1) as Hlen1.
  unfold time.After.
  destruct (Z.ltb_spec (Timestamp t1) (Timestamp t2)) as [Hlt|Hge];
    apply latestSHA_latest_at; split.
  - rewrite lookup_app_r by lia.
    replace (length l1 + i2 - length l1)%nat with i2 by lia. exact Hi2.
  - intros j t' Hj. apply lookup_app_Some in Hj as [Hj|[Hlen Hj]].
    + destruct (Hall1 j t' Hj) as [Hle _]. split; [lia|intros _; lia].
    + destruct (Hall2 _ t' Hj) as [Hle Hless].
      split; [exact Hle|]. intros Hji. apply Hless. lia.
  - apply lookup_app_l_Some. exact Hi1.
  - intros j t' Hj. apply lookup_app_Some in Hj as [Hj|[Hlen Hj]].
    + exact (Hall1 j t' Hj).
    + destruct (Hall2 _ t' Hj) as [Hle _]. split; [lia|intros Hji; lia].
Qed.

Lemma latestSHA_app_witness :
  latestSHA ([Sample.tag "a" 5; Sample.tag "b" 9] ++ Sample.mixed)
  = (Some (5%nat, Sample.tag "abc" 40), None).
Proof.
  rewrite (latestSHA_app [Sample.tag "a" 5; Sample.tag "b" 9] Sample.mixed
             1%nat 3%nat (Sample.tag "b" 9) (Sample.tag "abc" 40));
    vm_compute; reflexivity.
Defined.

(** ** The fingerprint as a key *)

(** X14.  [CalculateHashIndex] fails exactly when the serializer of the
    options fails; it then returns the empty string and the error of the
    serializer wrapped as a marshalling error.  The error for a failed
    hash write is never returned. *)
Theorem CalculateHashIndex_error_iff
    (json_Marshal : Options -> list ascii * option error)
    (imageURL : string) (opts : Options) :
  (snd (CalculateHashIndex json_Marshal imageURL opts) = None <->
   snd (json_Marshal opts) = None) /\
  (forall e, snd (json_Marshal opts) = Some e ->
     CalculateHashIndex json_Marshal imageURL opts
     = (EmptyString, Some (ErrMarshalOptions e))) /\
  (forall e, snd (CalculateHashIndex json_Marshal imageURL opts)
             <> Some (ErrCalculateHash e)).
Proof.
  rewrite CalculateHashIndex_run.
  destruct (json_Marshal opts) as [opsJson [e|]]; cbn [fst snd].
  - split; [split; discriminate|].
    split; [intros e' [= <-]; reflexivity|discriminate].
  - split; [split; reflexivity|].
    split; [discriminate|discriminate].
Qed.

Lemma Sprintf_d_inj n m :
  0 <= n -> 0 <= m -> Sprintf_d n = Sprintf_d m -> n = m.
Proof.
  unfold Sprintf_d. intros Hn Hm H.
  assert (Hu : N.to_uint (Z.to_N n) = N.to_uint (Z.to_N m)).
  { pose proof (NilEmpty.usu (N.to_uint (Z.to_N n))) as H1.
    pose proof (NilEmpty.usu (N.to_uint (Z.to_N m))) as H2.
    rewrite H in H1. congruence. }
  apply DecimalN.Unsigned.to_uint_inj in Hu. lia.
Qed.

(** X15.  When both option values serialize, two fingerprints are the
    same string exactly when the two FNV-1 hashes are the same number: the
    decimal rendering adds no collision of its own. *)
Theorem CalculateHashIndex_eq_iff
    (json_Marshal : Options -> list ascii * option error)
    (url1 url2 : string) (opts1 opts2 : Options)
    (json1 json2 : list ascii) :
  json_Marshal opts1 = (json1, None) ->
  json_Marshal opts2 = (json2, None) ->
  (fst (CalculateHashIndex json_Marshal url1 opts1)
   = fst (CalculateHashIndex json_Marshal url2 opts2)
   <->
   fnv1_32 (json1 ++ bytes_of url1) = fnv1_32 (json2 ++ bytes_of url2)).
Proof.
  intros H1 H2. rewrite !CalculateHashIndex_run, H1, H2. cbn [fst].
  split.
  - apply Sprintf_d_inj; apply fnv1_32_range.
  - intros ->. reflexivity.
Qed.

Lemma CalculateHashIndex_eq_iff_witness :
  fst (CalculateHashIndex Sample.marshal "docker.io/nginx" Sample.sha_only)
  <> fst (CalculateHashIndex Sample.marshal "docker.io/nginx"
            Sample.sha_and_pins).
Proof.
  intros Heq.
  apply (CalculateHashIndex_eq_iff Sample.marshal "docker.io/nginx"
           "docker.io/nginx" Sample.sha_only Sample.sha_and_pins
           (fst (Sample.marshal Sample.sha_only))
           (fst (Sample.marshal Sample.sha_and_pins))) in Heq;
    [|reflexivity|reflexivity].
  vm_compute in Heq. discriminate Heq.
Defined.
